(** * vocdoni-z-sandbox: ElGamal ciphertexts, the process API and the
    public-input hashing of the vote and aggregation circuits

  A shallow embedding of
  - [crypto/elgamal/ciphertext.go]  (module [elgamal]),
  - [api/process.go]                (module [api]),
  - the witness construction of [circuits/voteverifier/vote_verifier_test.go]
    (module [voteverifier]) and of the aggregator test, together with
    [ComputePublicInputsHashFromBLS12377ToBW6761] (module [aggregator]).

  Go values of type [*big.Int] are integers [Z]; byte slices are
  [list byte]; pointers are locations of a finite-map store, so that two
  [Ciphertext] structs may share an [ecc.Point] object. *)

From Stdlib Require Import ZArith List Lia Strings.Byte Strings.String.
From Stdlib Require Import Numbers.DecimalString.
From stdpp Require Import base option gmap list.

Open Scope Z_scope.

(** ** Bytes and [math/big] *)

Module bytes.

Definition to_Z (b : byte) : Z := Z.of_N (Byte.to_N b).

Definition of_Z (z : Z) : byte :=
  match Byte.of_N (Z.to_N (z mod 256)) with
  | Some b => b
  | None => x00
  end.

End bytes.

Module big.

(** Little-endian base-256 digits of a non-negative integer, without
    trailing zero digits; [fuel] bounds the number of digits. *)
Fixpoint le_digits (fuel : nat) (n : Z) : list byte :=
  match fuel with
  | O => []
  | S fuel' =>
      if n =? 0 then [] else bytes.of_Z n :: le_digits fuel' (n / 256)
  end.

Definition digits_fuel (n : Z) : nat := S (Z.to_nat (Z.log2 n)).

(** [x.Bytes()]: the absolute value of [x] as a big-endian byte slice with
    no leading zero. *)
Definition Bytes (x : Z) : list byte :=
  rev (le_digits (digits_fuel (Z.abs x)) (Z.abs x)).

(** [new(big.Int).SetBytes(b)]: [b] read as a big-endian unsigned
    integer. *)
Definition SetBytes (b : list byte) : Z :=
  fold_left (fun acc d => acc * 256 + bytes.to_Z d) b 0.

(** [x.FillBytes(buf)] with [len(buf) = n]: the absolute value of [x] as
    a zero-extended big-endian slice of [n] bytes; it panics ([None])
    when the value does not fit. *)
Definition FillBytes (n : nat) (x : Z) : option (list byte) :=
  let b := Bytes x in
  if (length b <=? n)%nat
  then Some (replicate (n - length b) x00 ++ b)
  else None.

(** The little-endian value of a byte list. *)
Fixpoint le_value (b : list byte) : Z :=
  match b with
  | [] => 0
  | d :: b' => bytes.to_Z d + 256 * le_value b'
  end.

End big.

(** ** The [arbo] helpers used by the ciphertext encoding *)

Module arbo.

Definition SwapEndianness (b : list byte) : list byte := rev b.

(** Go's builtin [copy(dst, src)]: the first [min(len dst, len src)]
    bytes of [dst] are overwritten, the length of [dst] is kept. *)
Definition copy (dst src : list byte) : list byte :=
  take (length dst) src ++ drop (length src) dst.

(** Modelled from the spec: [arbo.BigIntToBytes] is a dependency that is
    not part of the sources; the spec fixes the encoding as a [blen]-byte
    little-endian one.  The definition allocates [blen] zero bytes and
    copies the byte-swapped [bi.Bytes()] into them. *)
Definition BigIntToBytes (blen : nat) (bi : Z) : list byte :=
  copy (replicate blen x00) (SwapEndianness (big.Bytes bi)).

(** Modelled from the spec: [arbo.BytesToBigInt], the little-endian
    decoding, as [SetBytes] of the byte-swapped input. *)
Definition BytesToBigInt (b : list byte) : Z :=
  big.SetBytes (SwapEndianness b).

(** Modelled from the spec: [arbo.BigToFF] maps an integer into the
    field of the given modulus. *)
Definition BigToFF (baseField iv : Z) : Z := iv mod baseField.

End arbo.



(** ** The curve point interface and the coordinate conversions *)

Module ecc.

(** The [ecc.Point] interface as [ciphertext.go] uses it.  A value of [P]
    is the content of one point object; the methods that write their
    receiver ([SetPoint], [SafeAdd]) are given by the value they store in
    it.  [coords] is the method [Point()], which returns the two native
    coordinates. *)
Class Point (P : Type) := {
  New : P;
  coords : P -> Z * Z;
  SetPoint : Z -> Z -> P;
  SafeAdd : P -> P -> P;
}.

(** Modelled from the spec: the group primitives behind [EncryptWithK],
    which is not part of the sources: [ScalarBaseMult k] is [g^k] and
    [ScalarMult p k] is [k·p]. *)
Class Arith (P : Type) := {
  ScalarBaseMult : Z -> P;
  ScalarMult : P -> Z -> P;
}.

End ecc.

Module format.

(** The package-level conversions between the native twisted-Edwards
    coordinates and the reduced twisted-Edwards ones; their bodies are not
    part of the sources. *)
Class Conv := {
  FromTEtoRTE : Z * Z -> Z * Z;
  FromRTEtoTE : Z * Z -> Z * Z;
}.

End format.

(** ** [crypto/elgamal/ciphertext.go] *)

Module elgamal.

Import ecc format.

Abbreviation loc := positive.

(** size in bytes needed to serialize an ecc.Point coord *)
Definition sizePointCoord : nat := 32.

(** The encoding of one coordinate in [Serialize]. *)
Definition enc (c : Z) : list byte := arbo.BigIntToBytes sizePointCoord c.

(** [Ciphertext]: the two fields hold interface values, that is
    references to point objects. *)
Record Ciphertext := { C1 : loc; C2 : loc }.

Inductive error :=
| ErrInvalidInputLength (got expected : nat)
| ErrEncryptionFailed (cause : error)
| ErrOther (msg : string).

Definition decimal (n : nat) : string := NilEmpty.string_of_uint (Nat.to_uint n).

(** [err.Error()] *)
Fixpoint Error (e : error) : string :=
  match e with
  | ErrInvalidInputLength got expected =>
      ("invalid input length: got " ++ decimal got ++ " bytes, expected "
         ++ decimal expected ++ " bytes")%string
  | ErrEncryptionFailed cause => ("elgamal encryption failed: " ++ Error cause)%string
  | ErrOther msg => msg
  end.

Section Ciphertext.

Context {P : Type} {point : ecc.Point P} {arith : ecc.Arith P} {conv : format.Conv}.

(** The store: point objects and [Ciphertext] structs, each behind a
    reference.  A reference outside the domain plays the role of [nil]:
    dereferencing it panics, which the operations below render as
    [None]. *)
Record state := { points : gmap loc P; ciphertexts : gmap loc Ciphertext }.

Definition alloc_point (pts : gmap loc P) (p : P) : gmap loc P * loc :=
  let l := fresh (dom pts) in (<[l := p]> pts, l).

(** [NewCiphertext(curve)] *)
Definition NewCiphertext (σ : state) (curve : loc) : option (state * loc) :=
  _ ← points σ !! curve;
  let '(pts1, l1) := alloc_point (points σ) New in
  let '(pts2, l2) := alloc_point pts1 New in
  let c := fresh (dom (ciphertexts σ)) in
  Some ({| points := pts2;
           ciphertexts := <[c := {| C1 := l1; C2 := l2 |}]> (ciphertexts σ) |}, c).

(** Modelled from the spec: [EncryptWithK], which is not part of the
    sources, computes [C1 = g^k] and [C2 = message·g + k·publicKey] in two
    new point objects and reports no error. *)
Definition EncryptWithK (σ : state) (publicKey : loc) (message k : Z)
  : option (state * (loc * loc * option error)) :=
  pk ← points σ !! publicKey;
  let '(pts1, c1) := alloc_point (points σ) (ScalarBaseMult k) in
  let '(pts2, c2) :=
    alloc_point pts1 (SafeAdd (ScalarBaseMult message) (ScalarMult pk k)) in
  Some ({| points := pts2; ciphertexts := ciphertexts σ |}, (c1, c2, None)).

(** [z.Encrypt(message, publicKey, k)]; [k = None] is the nil pointer and
    [randK] is what the call of [RandK()] yields in this run. *)
Definition Encrypt (σ : state) (z : loc) (message : Z) (publicKey : loc)
  (k : option Z) (randK : error + Z) : option (state * (option loc * option error)) :=
  match (match k with Some k' => inr k' | None => randK end) with
  | inl err => Some (σ, (None, Some (ErrEncryptionFailed err)))
  | inr k' =>
      '(σ1, (c1, c2, err)) ← EncryptWithK σ publicKey message k';
      match err with
      | Some e => Some (σ1, (None, Some (ErrEncryptionFailed e)))
      | None =>
          _ ← ciphertexts σ1 !! z;
          Some ({| points := points σ1;
                   ciphertexts := <[z := {| C1 := c1; C2 := c2 |}]> (ciphertexts σ1) |},
                (Some z, None))
      end
  end.

(** [r.SafeAdd(a, b)] on references: the receiver object is overwritten. *)
Definition call_SafeAdd (pts : gmap loc P) (r a b : loc) : option (gmap loc P) :=
  _ ← pts !! r; pa ← pts !! a; pb ← pts !! b;
  Some (<[r := SafeAdd pa pb]> pts).

(** [z.Add(x, y)] *)
Definition Add (σ : state) (z x y : loc) : option (state * loc) :=
  cz ← ciphertexts σ !! z; cx ← ciphertexts σ !! x; cy ← ciphertexts σ !! y;
  pts1 ← call_SafeAdd (points σ) (C1 cz) (C1 cx) (C1 cy);
  pts2 ← call_SafeAdd pts1 (C2 cz) (C2 cx) (C2 cy);
  Some ({| points := pts2; ciphertexts := ciphertexts σ |}, z).

(** [buf.Write(b)] on a [bytes.Buffer] *)
Definition buf_Write (buf b : list byte) : list byte := buf ++ b.

(** [z.Serialize()] *)
Definition Serialize (σ : state) (z : loc) : option (list byte) :=
  cz ← ciphertexts σ !! z;
  p1 ← points σ !! C1 cz;
  let '(c1x, c1y) := FromTEtoRTE (coords p1) in
  p2 ← points σ !! C2 cz;
  let '(c2x, c2y) := FromTEtoRTE (coords p2) in
  Some (fold_left (fun buf bi => buf_Write buf (arbo.BigIntToBytes sizePointCoord bi))
          [c1x; c1y; c2x; c2y] []).

(** The helper [readBigInt] of [Deserialize]: [data[offset : offset+32]]
    decoded. *)
Definition readBigInt (data : list byte) (offset : nat) : Z :=
  arbo.BytesToBigInt (take sizePointCoord (drop offset data)).

(** [r.SetPoint(x, y)] on references: the receiver object is overwritten
    and returned. *)
Definition call_SetPoint (pts : gmap loc P) (r : loc) (xy : Z * Z)
  : option (gmap loc P * loc) :=
  _ ← pts !! r; Some (<[r := SetPoint xy.1 xy.2]> pts, r).

(** [z.Deserialize(data)]: the result is Go's [error], [None] for [nil]. *)
Definition Deserialize (σ : state) (z : loc) (data : list byte)
  : option (state * option error) :=
  if negb (length data =? 4 * sizePointCoord)%nat then
    Some (σ, Some (ErrInvalidInputLength (length data) (4 * sizePointCoord)))
  else
    cz ← ciphertexts σ !! z;
    '(pts1, c1) ← call_SetPoint (points σ) (C1 cz)
        (FromRTEtoTE (readBigInt data (0 * sizePointCoord),
                      readBigInt data (1 * sizePointCoord)));
    let cz1 := {| C1 := c1; C2 := C2 cz |} in
    '(pts2, c2) ← call_SetPoint pts1 (C2 cz1)
        (FromRTEtoTE (readBigInt data (2 * sizePointCoord),
                      readBigInt data (3 * sizePointCoord)));
    let cz2 := {| C1 := C1 cz1; C2 := c2 |} in
    Some ({| points := pts2; ciphertexts := <[z := cz2]> (ciphertexts σ) |}, None).

(** The pair of values a ciphertext reference denotes in a store. *)
Definition value (σ : state) (c : loc) : option (P * P) :=
  cc ← ciphertexts σ !! c;
  p1 ← points σ !! C1 cc; p2 ← points σ !! C2 cc;
  Some (p1, p2).

(** Coordinate-wise addition of two ciphertext values. *)
Definition add_value (a b : P * P) : P * P :=
  (SafeAdd a.1 b.1, SafeAdd a.2 b.2).

End Ciphertext.

(** [separate cz c]: the struct [c] refers to neither of the two point
    objects of the struct [cz]. *)
Definition separate (cz c : Ciphertext) : Prop :=
  C1 c <> C1 cz /\ C1 c <> C2 cz /\ C2 c <> C1 cz /\ C2 c <> C2 cz.

End elgamal.

(** ** Two instances of the point interface, used to run the model *)

(** A twisted-Edwards instance over the BN254 scalar field (the BabyJubJub
    curve [A·x² + y² = 1 + D·x²·y²]) with affine coordinates; [SetPoint]
    reduces its arguments and checks nothing, as the interface gives it no
    way to report a failure. *)
Module bjj.

Definition q : Z :=
  21888242871839275222246405745257275088548364400416034343698204186575808495617.
Definition A : Z := 168700.
Definition D : Z := 168696.
Definition scalingFactor : Z :=
  6360561867910373094066688120553762416144456282423235903351243436111059670888.

Definition on_curve (p : Z * Z) : bool :=
  let '(x, y) := p in
  (0 <=? x) && (x <? q) && (0 <=? y) && (y <? q)
  && ((A * x * x + y * y) mod q =? (1 + D * x * x * y * y) mod q).

Definition add (a b : Z * Z) : Z * Z :=
  let '(x1, y1) := a in
  let '(x2, y2) := b in
  let t := D * x1 * x2 * y1 * y2 in
  (((x1 * y2 + y1 * x2) * Z.invmod (1 + t) q) mod q,
   ((y1 * y2 - A * x1 * x2) * Z.invmod (1 - t) q) mod q).

Definition G : Z * Z :=
  (5299619240641551281634865583518297030282874472190772894086521144482721001553,
   16950150798460657717958625567821834550301663161624707787222815936182638968203).

Definition mul (p : Z * Z) (k : Z) : Z * Z :=
  match k mod q with
  | Zpos n => Pos.iter_op add n p
  | _ => (0, 1)
  end.

Definition point : ecc.Point (Z * Z) := {|
  ecc.New := (0, 1);
  ecc.coords p := p;
  ecc.SetPoint x y := (x mod q, y mod q);
  ecc.SafeAdd := add;
|}.

Definition arith : ecc.Arith (Z * Z) := {|
  ecc.ScalarBaseMult k := mul G k;
  ecc.ScalarMult p k := mul p k;
|}.

Definition conv : format.Conv := {|
  format.FromTEtoRTE xy := ((xy.1 * ((- scalingFactor) mod q)) mod q, xy.2);
  format.FromRTEtoTE xy := ((xy.1 * Z.invmod ((- scalingFactor) mod q) q) mod q, xy.2);
|}.

End bjj.

(** The additive group of integers modulo [n], points being given by
    their discrete logarithm: an instance on which the group laws are
    immediate. *)
Module zn.

Definition n : Z := 1009.

Definition point : ecc.Point Z := {|
  ecc.New := 0;
  ecc.coords p := (p mod n, 0);
  ecc.SetPoint x y := x mod n;
  ecc.SafeAdd a b := (a + b) mod n;
|}.

Definition arith : ecc.Arith Z := {|
  ecc.ScalarBaseMult k := k mod n;
  ecc.ScalarMult p k := (k * p) mod n;
|}.

Definition conv : format.Conv := {|
  format.FromTEtoRTE xy := xy;
  format.FromRTEtoTE xy := xy;
|}.

End zn.

(** ** Assumptions on the interface *)

Module laws.

Import ecc format.

(** The spec's data model: point addition is commutative and
    associative. *)
Class Group (P : Type) {point : ecc.Point P} : Prop := {
  SafeAdd_comm : forall a b : P, SafeAdd a b = SafeAdd b a;
  SafeAdd_assoc : forall a b c : P, SafeAdd (SafeAdd a b) c = SafeAdd a (SafeAdd b c);
}.

(** What the round trip of the wire encoding needs from the missing
    parts, for the points [valid] holds of: the conversions are inverse to
    each other, a converted coordinate fits in 32 bytes, and [SetPoint]
    followed by [Point()] gives the coordinates back. *)
Class Encoding (P : Type) {point : ecc.Point P} {conv : format.Conv}
    (valid : P -> Prop) : Prop := {
  FromRTEtoTE_FromTEtoRTE :
    forall p, valid p -> FromRTEtoTE (FromTEtoRTE (coords p)) = coords p;
  FromTEtoRTE_fits :
    forall p, valid p ->
      0 <= (FromTEtoRTE (coords p)).1 < 2 ^ 256 /\
      0 <= (FromTEtoRTE (coords p)).2 < 2 ^ 256;
  coords_SetPoint :
    forall p, valid p -> coords (SetPoint (coords p).1 (coords p).2) = coords p;
}.

End laws.

(** ** Concrete stores *)

Module examples.

Import elgamal.

Definition G2 : Z * Z := bjj.add bjj.G bjj.G.
Definition G3 : Z * Z := bjj.add G2 bjj.G.
Definition G5 : Z * Z := bjj.add G3 G2.

(** Two ciphertexts, at the references 1 and 2, over four point objects:
    [(G, 2G)] and [(3G, 5G)]. *)
Definition store_two : state (P := Z * Z) :=
  {| points := <[1%positive := bjj.G]> (<[2%positive := G2]>
                 (<[3%positive := G3]> (<[4%positive := G5]> ∅)));
     ciphertexts := <[1%positive := {| C1 := 1; C2 := 2 |}]>
                      (<[2%positive := {| C1 := 3; C2 := 4 |}]> ∅) |}.

(** As [store_two], with a third struct, at reference 3, whose fields
    hold the same two point objects as the struct at reference 1 (what
    [x := &Ciphertext{C1: z.C1, C2: z.C2}] builds). *)
Definition store_shared : state (P := Z * Z) :=
  {| points := points store_two;
     ciphertexts := <[3%positive := {| C1 := 1; C2 := 2 |}]> (ciphertexts store_two) |}.

(** Three ciphertexts over six point objects of the group [zn]. *)
Definition store_zn : state (P := Z) :=
  {| points := <[1%positive := 5]> (<[2%positive := 7]> (<[3%positive := 11]>
                 (<[4%positive := 13]> (<[5%positive := 17]> (<[6%positive := 19]> ∅)))));
     ciphertexts := <[1%positive := {| C1 := 1; C2 := 2 |}]>
                      (<[2%positive := {| C1 := 3; C2 := 4 |}]>
                         (<[3%positive := {| C1 := 5; C2 := 6 |}]> ∅)) |}.

End examples.

(** ** [api/process.go]: the handler of POST /process *)

Module api.

(** Modelled from the spec: the API errors, declared outside the sources,
    are structured errors with a stable error code; [Withf] attaches a
    formatted message and keeps the code. *)
Inductive ErrorCode := MalformedBody | InvalidSignature | GenericInternalServerError.

Record Error := { Code : ErrorCode; Message : string }.

Definition ErrMalformedBody : Error :=
  {| Code := MalformedBody; Message := "" |}.
Definition ErrInvalidSignature : Error :=
  {| Code := InvalidSignature; Message := "" |}.
Definition ErrGenericInternalServerError : Error :=
  {| Code := GenericInternalServerError; Message := "" |}.

Definition Withf (e : Error) (msg : string) : Error :=
  {| Code := Code e; Message := msg |}.

(** [fmt.Sprintf("%d%d", a, b)] as bytes *)
Definition Sprintf_dd (a b : Z) : list byte :=
  list_byte_of_string
    (NilEmpty.string_of_int (Z.to_int a) ++ NilEmpty.string_of_int (Z.to_int b))%string.

(** The decoded request body. *)
Record Process := { ChainID : Z; Nonce : Z; Signature : list byte }.

Section newProcess.

(** The collaborators of the handler.  A Go [error] is given by its
    message. *)
Variables Address PublicKey PrivateKey Storage : Type.

Record ProcessID := { pidAddress : Address; pidNonce : Z; pidChainID : Z }.

Record ProcessResponse := {
  respProcessID : list byte;
  respEncryptionPubKey : Z * Z;
  respStateRoot : list byte;
}.

(** What the handler does to the outside: what it writes to the response,
    what it logs, and each call of [StoreEncryptionKeys]. *)
Inductive Event :=
| WriteError (e : Error)
| WriteJSON (pr : ProcessResponse)
| LogInfow (msg : string) (pr : ProcessResponse)
| CallStoreEncryptionKeys (pid : ProcessID) (pub : PublicKey) (priv : PrivateKey).

(** [json.NewDecoder(r.Body).Decode(p)] *)
Variable json_Decode : list byte -> string + Process.
(** [ethereum.AddrFromSignature(msg, sig)] *)
Variable AddrFromSignature : list byte -> list byte -> string + Address.
(** what [elgamal.GenerateKey(curves.New(curves.CurveTypeBN254))] yields in
    this run *)
Variable GenerateKey : string + (PublicKey * PrivateKey).
(** [publicKey.Point()] *)
Variable Point : PublicKey -> Z * Z.
(** [pid.Marshal()] *)
Variable Marshal : ProcessID -> list byte.
(** [a.storage.StoreEncryptionKeys(pid, pub, priv)]: the storage it leaves
    and its error, if any *)
Variable StoreEncryptionKeys :
  Storage -> ProcessID -> PublicKey -> PrivateKey -> Storage * option string.

(** [a.newProcess(w, r)], from the storage and the request body to the
    storage it leaves and what it did. *)
Definition newProcess (storage : Storage) (body : list byte) : Storage * list Event :=
  match json_Decode body with
  | inl err =>
      (storage,
       [WriteError (Withf ErrMalformedBody ("could not decode request body: " ++ err))])
  | inr p =>
      match AddrFromSignature (Sprintf_dd (ChainID p) (Nonce p)) (Signature p) with
      | inl err =>
          (storage,
           [WriteError (Withf ErrInvalidSignature
                          ("could not extract address from signature: " ++ err))])
      | inr address =>
          let pid := {| pidAddress := address; pidNonce := Nonce p;
                        pidChainID := ChainID p |} in
          match GenerateKey with
          | inl err =>
              (storage,
               [WriteError (Withf ErrGenericInternalServerError
                              ("could not generate elgamal key: " ++ err))])
          | inr (publicKey, privateKey) =>
              let '(x, y) := Point publicKey in
              let pr := {| respProcessID := Marshal pid;
                           respEncryptionPubKey := (x, y);
                           respStateRoot := [] |} in
              match StoreEncryptionKeys storage pid publicKey privateKey with
              | (storage', Some err) =>
                  (storage',
                   [CallStoreEncryptionKeys pid publicKey privateKey;
                    WriteError (Withf ErrGenericInternalServerError
                                  ("could not store encryption keys: " ++ err))])
              | (storage', None) =>
                  (storage',
                   [CallStoreEncryptionKeys pid publicKey privateKey;
                    LogInfow "new process" pr;
                    WriteJSON pr])
              end
          end
      end
  end.

Definition is_store_call (e : Event) : bool :=
  match e with CallStoreEncryptionKeys _ _ _ => true | _ => false end.

(** The three failures that the handler meets before it reaches the
    storage. *)
Definition fails_before_store (body : list byte) : Prop :=
  (exists err, json_Decode body = inl err) \/
  (exists p err, json_Decode body = inr p /\
     AddrFromSignature (Sprintf_dd (ChainID p) (Nonce p)) (Signature p) = inl err) \/
  (exists p address err, json_Decode body = inr p /\
     AddrFromSignature (Sprintf_dd (ChainID p) (Nonce p)) (Signature p) = inr address /\
     GenerateKey = inl err).

End newProcess.

End api.

(** ** The circuits' tests: how the witnesses and their hashes are built *)

(** Scalar-field moduli.  [arbo.BN254BaseField] is the scalar field of
    BN254 and [BLS12_377_ScalarField] is [ecc.BLS12_377.ScalarField()]. *)
Definition BN254BaseField : Z := bjj.q.
Definition BLS12_377_ScalarField : Z :=
  8444461749428370424248824938781546531375899335154063827935233455917409239041.

(** The constants of the test packages and the values shared by the
    voters of one process. *)
Record ProcessData := {
  MaxCount : Z;
  ForceUniqueness : Z;
  MaxValue : Z;
  MinValue : Z;
  CostExp : Z;
  CostFromWeight : Z;
  Weight : Z;
  processID : list byte;
  encryptionKeyX : Z;
  encryptionKeyY : Z;
  censusRoot : Z;
}.

(** The values of one voter, which the tests draw at random or take from
    helpers that are not part of the sources. *)
Record VoterData (PrivateKey : Type) := {
  address : list byte;
  nullifier : Z;
  commitment : Z;
  plainCipherfields : list Z;
  privKey : PrivateKey;
}.

Arguments address {_} _.
Arguments nullifier {_} _.
Arguments commitment {_} _.
Arguments plainCipherfields {_} _.
Arguments privKey {_} _.

Section CircomInputs.

Context {PrivateKey : Type}.

(** [int64(math.Pow(float64(a), float64(b)))] *)
Variable math_Pow : Z -> Z -> Z.

(** The slice [bigCircomInputs] of both tests. *)
Definition bigCircomInputs (p : ProcessData) (v : VoterData PrivateKey) : list Z :=
  [ MaxCount p; ForceUniqueness p; MaxValue p; MinValue p;
    math_Pow (MaxValue p) (CostExp p) * MaxCount p;
    MaxCount p; CostExp p; CostFromWeight p;
    arbo.BigToFF BN254BaseField (big.SetBytes (address v));
    Weight p;
    arbo.BigToFF BN254BaseField (big.SetBytes (processID p));
    encryptionKeyX p; encryptionKeyY p; nullifier v; commitment v ]
  ++ plainCipherfields v.

End CircomInputs.

Module voteverifier.

(** The fields of the [VerifyVoteCircuit] witness of
    [TestVerifyVoteCircuit] that depend on the two hashes; [InputsHash] is
    kept as the number whose decimal string the test stores. *)
Record VerifyVoteCircuit := {
  InputsHash : Z;
  CensusRoot : Z;
  Signature : Z * Z;
}.

Section Test.

Context {PrivateKey : Type}.
Variable math_Pow : Z -> Z -> Z.
(** [mimc7.Hash(arr, nil)] *)
Variable mimc7_Hash : list Z -> string + Z.
(** [SignECDSA(privKey, msg)], the pair [(r, s)] *)
Variable SignECDSA : PrivateKey -> list byte -> string + (Z * Z).

(** [TestVerifyVoteCircuit], from the inputs hash to the witness; an
    error is a failed [c.Assert(err, qt.IsNil)]. *)
Definition witness (p : ProcessData) (v : VoterData PrivateKey)
  : string + VerifyVoteCircuit :=
  let bigCircomInputs := bigCircomInputs math_Pow p v in
  match mimc7_Hash bigCircomInputs with
  | inl err => inl err
  | inr circomInputsHash =>
      (* sign the inputs hash *)
      match SignECDSA (privKey v) (big.Bytes circomInputsHash) with
      | inl err => inl err
      | inr (rSign, sSign) =>
          (* init the vote gnark inputs to hash them (circom + census root) *)
          let bigGnarkInputs := bigCircomInputs ++ [censusRoot p] in
          match mimc7_Hash bigGnarkInputs with
          | inl err => inl err
          | inr inputsHash =>
              inr {| InputsHash := inputsHash;
                     CensusRoot := censusRoot p;
                     Signature := (rSign, sSign) |}
          end
      end
  end.

End Test.

End voteverifier.

Module emulated.

(** [frontend.Variable] is Go's [interface{}]: the dynamic types that
    [getBigIntFromVariable] tells apart, and any other one by its name. *)
Inductive Variable_ :=
| VBigIntPtr (v : Z)
| VBigInt (v : Z)
| VUint64 (v : Z)
| VInt (v : Z)
| VString (s : string)
| VOther (type_name : string).

(** [emulated.Element[T]] *)
Record Element := { Limbs : list Variable_ }.

(** The field parameters [sw_bls12377.ScalarField], as the dependency
    declares them: four limbs of 64 bits. *)
Definition NbLimbs : nat := 4.
Definition BitsPerLimb : Z := 64.

(** The limbs of a non-negative integer, least significant first. *)
Fixpoint decompose (n : nat) (v : Z) : list Z :=
  match n with
  | O => []
  | S n' => v mod 2 ^ BitsPerLimb :: decompose n' (v / 2 ^ BitsPerLimb)
  end.

(** Modelled from the spec: the limbs of
    [emulated.ValueOf[sw_bls12377.ScalarField](v)], a function of a
    dependency that is not part of the sources: the constant, reduced
    modulo the field unless it is the modulus itself, is decomposed into
    fixed-width limbs. *)
Definition limbs_BLS12_377 (v : Z) : list Z :=
  decompose NbLimbs
    (if v =? BLS12_377_ScalarField then v else v mod BLS12_377_ScalarField).

End emulated.

Module aggregator.

Import emulated.

(** [fr_bls12377.Bytes] *)
Definition fr_bls12377_Bytes : nat := 32.

Inductive outcome (A : Type) :=
| Panic
| Failed (err : string)
| Returned (a : A).

Arguments Panic {A}.
Arguments Failed {A} err.
Arguments Returned {A} a.

Section Hash.

(** The limb values of [emulated.ValueOf[sw_bls12377.ScalarField](v)]. *)
Variable limbs_of : Z -> list Z.

(** [emulated.ValueOf[sw_bls12377.ScalarField](v)]: every limb is a
    [*big.Int]. *)
Definition ValueOf (v : Z) : Element :=
  {| Limbs := map VBigIntPtr (limbs_of v) |}.

(** [bi.SetString(val, 10)] *)
Variable SetString10 : string -> option Z.
(** The MiMC hasher of the BW6-761 scalar field, [cmimc.NewMiMC()]: the
    digest [Sum(nil)] of the sequence of slices written. *)
Variable mimc_BW6_761_Sum : list (list byte) -> list byte.

Definition getBigIntFromVariable (v : Variable_) : string + Z :=
  match v with
  | VBigIntPtr val => inr val
  | VBigInt val => inr val
  | VUint64 val => inr val
  | VInt val => inr val
  | VString val =>
      match SetString10 val with
      | Some bi => inr bi
      | None => inl ("invalid string for big.Int: " ++ val)%string
      end
  | VOther type_name => inl ("unsupported variable type " ++ type_name)%string
  end.

(** The inner loop of [ComputePublicInputsHashFromBLS12377ToBW6761] over
    the limbs of one input; [h] is the sequence of slices written to the
    hasher so far. *)
Fixpoint hash_limbs (h : list (list byte)) (limbs : list Variable_)
  : outcome (list (list byte)) :=
  match limbs with
  | [] => Returned h
  | limb :: limbs' =>
      match getBigIntFromVariable limb with
      | inl err => Failed err
      | inr limbValue =>
          match big.FillBytes fr_bls12377_Bytes limbValue with
          | None => Panic
          | Some buf => hash_limbs (h ++ [buf]) limbs'
          end
      end
  end.

(** The outer loop, over the inputs. *)
Fixpoint hash_inputs (h : list (list byte)) (publicInputs : list Element)
  : outcome (list (list byte)) :=
  match publicInputs with
  | [] => Returned h
  | input :: publicInputs' =>
      match hash_limbs h (Limbs input) with
      | Returned h' => hash_inputs h' publicInputs'
      | other => other
      end
  end.

Definition ComputePublicInputsHashFromBLS12377ToBW6761 (publicInputs : list Element)
  : outcome Z :=
  match hash_inputs [] publicInputs with
  | Returned h =>
      let digest := mimc_BW6_761_Sum h in
      Returned (big.SetBytes digest)
  | Panic => Panic
  | Failed err => Failed err
  end.

Context {PrivateKey : Type}.
Variable math_Pow : Z -> Z -> Z.
Variable mimc7_Hash : list Z -> string + Z.
Variable SignECDSA : PrivateKey -> list byte -> string + (Z * Z).
(** The MiMC hasher of the BLS12-377 scalar field, [mimc.NewMiMC()]. *)
Variable mimc_BLS12_377_Sum : list (list byte) -> list byte.

(** The fields of the [VerifyVoteCircuit] witness that
    [TestAggregatorCircuit] builds for one voter; [Signature] is [None]
    when [SignECDSA] failed, an error the test does not look at. *)
Record VerifyVoteCircuit := {
  InputsHash : Z;
  CensusRoot : Z;
  Msg : Z;
  Signature : option (Z * Z);
}.

(** The body of the loop over the voters, from the circom inputs hash to
    the witness. *)
Definition voter_witness (p : ProcessData) (v : VoterData PrivateKey)
  : string + VerifyVoteCircuit :=
  match mimc7_Hash (bigCircomInputs math_Pow p v) with
  | inl err => inl err
  | inr circomInputsHash =>
      (* transform the inputs hash to the field of the curve used by the circuit *)
      let blsCircomInputsHash := arbo.BigToFF BLS12_377_ScalarField circomInputsHash in
      (* sign the inputs hash with the private key *)
      let sig :=
        match SignECDSA (privKey v) (big.Bytes blsCircomInputsHash) with
        | inl _ => None
        | inr rs => Some rs
        end in
      (* hash the inputs of gnark circuit (circom inputs hash + census root) *)
      let hFn := [] ++ [big.Bytes blsCircomInputsHash] ++ [big.Bytes (censusRoot p)] in
      let inputsHash := big.SetBytes (mimc_BLS12_377_Sum hFn) in
      inr {| InputsHash := inputsHash;
             CensusRoot := censusRoot p;
             Msg := blsCircomInputsHash;
             Signature := sig |}
  end.

(** The slice [inputs] of [TestAggregatorCircuit]: the literal, then the
    four loops that append to it. *)
Definition test_inputs (p : ProcessData) (voters : list (VoterData PrivateKey))
  : list Element :=
  let nullifiers := map nullifier voters in
  let commitments := map commitment voters in
  let addresses := map address voters in
  let totalPlainCipherfields :=
    fold_left (fun total v => total ++ plainCipherfields v) voters [] in
  let inputs :=
    [ ValueOf (MaxCount p); ValueOf (ForceUniqueness p);
      ValueOf (MaxValue p); ValueOf (MinValue p);
      ValueOf (math_Pow (MaxValue p) (CostExp p) * MaxCount p);
      ValueOf (MaxCount p); ValueOf (CostExp p); ValueOf (CostFromWeight p);
      ValueOf (encryptionKeyX p); ValueOf (encryptionKeyY p);
      ValueOf (big.SetBytes (processID p));
      ValueOf (censusRoot p) ] in
  let inputs := fold_left (fun inputs n => inputs ++ [ValueOf n]) nullifiers inputs in
  let inputs := fold_left (fun inputs c => inputs ++ [ValueOf c]) commitments inputs in
  let inputs :=
    fold_left (fun inputs a => inputs ++ [ValueOf (big.SetBytes a)]) addresses inputs in
  fold_left (fun inputs coord => inputs ++ [ValueOf coord]) totalPlainCipherfields inputs.

(** [finalWitness.InputsHash], when [ComputePublicInputsHash...] returned
    without an error. *)
Definition finalWitness_InputsHash (p : ProcessData) (voters : list (VoterData PrivateKey))
  : outcome Z :=
  ComputePublicInputsHashFromBLS12377ToBW6761 (test_inputs p voters).

(** The batch hash as the spec words it: the values in the order process
    parameters, encryption key, process id, census root, nullifiers,
    commitments, addresses, ciphertext coordinates; each value is split
    into limbs and each limb is one 32-byte big-endian block given to the
    hasher. *)
Definition batch_values (p : ProcessData) (voters : list (VoterData PrivateKey)) : list Z :=
  [ MaxCount p; ForceUniqueness p; MaxValue p; MinValue p;
    math_Pow (MaxValue p) (CostExp p) * MaxCount p;
    MaxCount p; CostExp p; CostFromWeight p ]
  ++ [ encryptionKeyX p; encryptionKeyY p ]
  ++ [ big.SetBytes (processID p) ]
  ++ [ censusRoot p ]
  ++ map nullifier voters
  ++ map commitment voters
  ++ map (fun v => big.SetBytes (address v)) voters
  ++ concat (map plainCipherfields voters).

Definition block_of (limb : Z) : list byte :=
  replicate (32 - length (big.Bytes limb)) x00 ++ big.Bytes limb.

Definition batch_hash_spec (p : ProcessData) (voters : list (VoterData PrivateKey)) : Z :=
  big.SetBytes (mimc_BW6_761_Sum (map block_of (concat (map limbs_of (batch_values p voters))))).

End Hash.

End aggregator.

(** Stand-ins for the hash functions and the signature, which are
    dependencies outside the sources, to run the tests' witness
    construction on concrete values. *)
Module standin.

Definition Hash (l : list Z) : string + Z :=
  inr (fold_left (fun acc x => (acc * 31 + x + 1) mod BN254BaseField) l 0).

Definition Sum (blocks : list (list byte)) : list byte :=
  big.Bytes (fold_left (fun acc b => (acc * 31 + big.SetBytes b + 1) mod BN254BaseField)
               blocks 0).

(** A signature that shows the message it was made for. *)
Definition Sign (priv : Z) (msg : list byte) : string + (Z * Z) :=
  inr (big.SetBytes msg, priv).

Definition Pow (a b : Z) : Z := a ^ b.

Definition process : ProcessData :=
  {| MaxCount := 5; ForceUniqueness := 0; MaxValue := 16; MinValue := 0;
     CostExp := 2; CostFromWeight := 0; Weight := 10;
     processID := [x01; x02; x03];
     encryptionKeyX := fst bjj.G; encryptionKeyY := snd bjj.G;
     censusRoot := 123456789 |}.

Definition voter : VoterData Z :=
  {| address := [x0a; x0b]; nullifier := 11; commitment := 22;
     plainCipherfields := [1; 2; 3; 4]; privKey := 77 |}.

(** The two witnesses the tests build from these values. *)
Definition witness1 : voteverifier.VerifyVoteCircuit :=
  Eval vm_compute in
    match voteverifier.witness Pow Hash Sign process voter with
    | inr w => w
    | inl _ => {| voteverifier.InputsHash := 0; voteverifier.CensusRoot := 0;
                  voteverifier.Signature := (0, 0) |}
    end.

Definition witness2 : aggregator.VerifyVoteCircuit :=
  Eval vm_compute in
    match aggregator.voter_witness Pow Hash Sign Sum process voter with
    | inr w => w
    | inl _ => {| aggregator.InputsHash := 0; aggregator.CensusRoot := 0;
                  aggregator.Msg := 0; aggregator.Signature := None |}
    end.

(** Collaborators of the POST /process handler: a decoder that rejects
    the empty body, an address recovery that wants 65 bytes, a key
    generator without entropy and a storage that counts the keys stored. *)
Definition Decode (body : list byte) : string + api.Process :=
  match body with
  | [] => inl "EOF"%string
  | _ => inr {| api.ChainID := 1; api.Nonce := 2; api.Signature := body |}
  end.

Definition AddrFromSignature (msg sig : list byte) : string + Z :=
  if (length sig =? 65)%nat then inr (big.SetBytes sig)
  else inl "invalid signature length"%string.

Definition GenerateKey : string + (Z * Z * Z) := inl "no entropy"%string.

Definition Store (n : nat) (pid : api.ProcessID Z) (pub : Z * Z) (priv : Z)
  : nat * option string := (S n, None).

Definition handler : nat -> list byte -> nat * list (api.Event Z (Z * Z) Z) :=
  api.newProcess Z (Z * Z) Z nat Decode AddrFromSignature GenerateKey
    (fun pub => pub) (fun pid => []) Store.

End standin.

(** ** The other methods of [Ciphertext], and sequences of calls *)

Module views.

Import ecc format elgamal.

(** The method [String()] of the [ecc.Point] interface. *)
Class Stringer (P : Type) := { PointString : P -> string }.

(** [twistededwards.Point] and [gelgamal.Ciphertext], the structs of the
    circuit library that [ToGnark] fills. *)
Record GnarkPoint := { X : Z; Y : Z }.
Record GnarkCiphertext := { gC1 : GnarkPoint; gC2 : GnarkPoint }.

Section Views.

Context {P : Type} {point : ecc.Point P} {arith : ecc.Arith P} {conv : format.Conv}
  {stringer : Stringer P}.

(** [z.String()]: a nil receiver or a nil point gives the fixed text. *)
Definition String_ (σ : state (P := P)) (z : loc) : string :=
  match ciphertexts σ !! z with
  | None => "{C1: nil, C2: nil}"
  | Some cz =>
      match points σ !! C1 cz, points σ !! C2 cz with
      | Some p1, Some p2 =>
          ("{C1: " ++ PointString p1 ++ ", C2: " ++ PointString p2 ++ "}")%string
      | _, _ => "{C1: nil, C2: nil}"%string
      end
  end.

(** [z.ToGnark()] *)
Definition ToGnark (σ : state (P := P)) (z : loc) : option GnarkCiphertext :=
  cz ← ciphertexts σ !! z;
  p1 ← points σ !! C1 cz;
  let '(c1x, c1y) := FromTEtoRTE (coords p1) in
  p2 ← points σ !! C2 cz;
  let '(c2x, c2y) := FromTEtoRTE (coords p2) in
  Some {| gC1 := {| X := c1x; Y := c1y |}; gC2 := {| X := c2x; Y := c2y |} |}.

(** The running tally: [acc.Add(acc, c)] for each [c] of [cs], in
    order. *)
Fixpoint AddAll (σ : state (P := P)) (acc : loc) (cs : list loc) : option state :=
  match cs with
  | [] => Some σ
  | c :: cs' => '(σ1, _) ← Add σ acc acc c; AddAll σ1 acc cs'
  end.

(** The values of the ciphertexts of a list, in order. *)
Definition values (σ : state (P := P)) (cs : list loc) : list (P * P) :=
  omap (value σ) cs.

(** The ciphertexts a tally may take in: existing ones that share no
    point object with the accumulator, whose struct is [cz]. *)
Definition addable (σ : state (P := P)) (cz : Ciphertext) (c : loc) : Prop :=
  exists cc, ciphertexts σ !! c = Some cc /\ separate cz cc /\ is_Some (value σ c).

End Views.

End views.

(** ** [api/process.go]: the handler of GET /process *)

Module api_get.

(** Modelled from the spec: the two API errors of this handler, declared
    outside the sources, with their codes; [Withf] attaches the message. *)
Inductive ErrorCode := MalformedProcessID | ProcessNotFound.

Record Error := { Code : ErrorCode; Message : string }.

Definition ErrMalformedProcessID : Error :=
  {| Code := MalformedProcessID; Message := "" |}.
Definition ErrProcessNotFound : Error :=
  {| Code := ProcessNotFound; Message := "" |}.

Definition Withf (e : Error) (msg : string) : Error :=
  {| Code := Code e; Message := msg |}.

Section process.

Variables Address PublicKey PrivateKey Storage : Type.

(** [ProcessResponse] with the fields this handler fills. *)
Record ProcessResponse := {
  respProcessID : list byte;
  respAddress : string;
  respChainID : Z;
  respNonce : Z;
  respEncryptionPubKey : Z * Z;
  respStateRoot : list byte;
}.

Inductive Event :=
| WriteError (e : Error)
| WriteJSON (pr : ProcessResponse).

(** [hex.DecodeString(s)] *)
Variable hex_DecodeString : string -> string + list byte.
(** [pid.Unmarshal(b)] on a zero [types.ProcessID] *)
Variable Unmarshal : list byte -> string + api.ProcessID Address.
(** [pid.Marshal()] *)
Variable Marshal : api.ProcessID Address -> list byte.
(** [address.Hex()] *)
Variable Hex : Address -> string.
(** [a.storage.LoadEncryptionKeys(pid)] *)
Variable LoadEncryptionKeys :
  Storage -> api.ProcessID Address -> string + (PublicKey * PrivateKey).
(** [pubk.Point()] *)
Variable Point : PublicKey -> Z * Z.

(** [a.process(w, r)], from the storage and the query parameter [id] to
    what is written to the response. *)
Definition process (storage : Storage) (id : string) : list Event :=
  match hex_DecodeString id with
  | inl err =>
      [WriteError (Withf ErrMalformedProcessID ("could not decode process ID: " ++ err))]
  | inr pidBytes =>
      match Unmarshal pidBytes with
      | inl err =>
          [WriteError (Withf ErrMalformedProcessID
                         ("could not unmarshal process ID: " ++ err))]
      | inr pid =>
          match LoadEncryptionKeys storage pid with
          | inl err =>
              [WriteError (Withf ErrProcessNotFound
                             ("could not retrieve process: " ++ err))]
          | inr (pubk, _) =>
              let '(x, y) := Point pubk in
              [WriteJSON {| respProcessID := Marshal pid;
                            respAddress := Hex (api.pidAddress Address pid);
                            respChainID := api.pidChainID Address pid;
                            respNonce := api.pidNonce Address pid;
                            respEncryptionPubKey := (x, y);
                            respStateRoot := [] |}]
          end
      end
  end.

End process.

End api_get.

(** ** Reading the traces of the handlers *)

Module traces.

Section Traces.

Context {Address PublicKey PrivateKey : Type}.

(** A write to the response. *)
Definition is_response (e : api.Event Address PublicKey PrivateKey) : bool :=
  match e with
  | api.WriteError _ _ _ _ | api.WriteJSON _ _ _ _ => true
  | _ => false
  end.

Definition is_json (e : api.Event Address PublicKey PrivateKey) : bool :=
  match e with api.WriteJSON _ _ _ _ => true | _ => false end.

End Traces.

End traces.

(** ** One limb of the public inputs hash *)

Module limbs.

Import emulated aggregator.

(** What the body of the inner loop of
    [ComputePublicInputsHashFromBLS12377ToBW6761] makes of one limb: the
    error of [getBigIntFromVariable], the panic of [FillBytes], or the
    block written to the hasher. *)
Definition limb_block (SetString10 : string -> option Z) (limb : Variable_)
  : outcome (list byte) :=
  match getBigIntFromVariable SetString10 limb with
  | inl err => Failed err
  | inr limbValue =>
      match big.FillBytes fr_bls12377_Bytes limbValue with
      | None => Panic
      | Some buf => Returned buf
      end
  end.

(** All limbs of a slice of inputs, in order. *)
Definition all_limbs (publicInputs : list Element) : list Variable_ :=
  concat (map Limbs publicInputs).

End limbs.

(** Collaborators of the two handlers for a request that goes through: a
    storage that keeps the last keys stored. *)
Module served.

Definition Storage : Type := option (api.ProcessID Z * (Z * Z) * Z).

Definition the_pid : api.ProcessID Z :=
  {| api.pidAddress := 0; api.pidNonce := 2; api.pidChainID := 1 |}.

Definition Decode (body : list byte) : string + api.Process :=
  inr {| api.ChainID := 1; api.Nonce := 2; api.Signature := body |}.

Definition AddrFromSignature (msg sig : list byte) : string + Z := inr 0.

Definition GenerateKey : string + (Z * Z * Z) := inr (bjj.G, 5).

Definition Marshal (pid : api.ProcessID Z) : list byte :=
  [bytes.of_Z (api.pidChainID Z pid); bytes.of_Z (api.pidNonce Z pid)].

Definition Unmarshal (b : list byte) : string + api.ProcessID Z :=
  match b with
  | [c; n] => inr {| api.pidAddress := 0; api.pidNonce := bytes.to_Z n;
                     api.pidChainID := bytes.to_Z c |}
  | _ => inl "invalid length"%string
  end.

Definition Store (st : Storage) (pid : api.ProcessID Z) (pub : Z * Z) (priv : Z)
  : Storage * option string := (Some (pid, pub, priv), None).

Definition Load (st : Storage) (pid : api.ProcessID Z) : string + (Z * Z * Z) :=
  match st with
  | Some (pid', pub, priv) =>
      if (api.pidChainID Z pid =? api.pidChainID Z pid')
         && (api.pidNonce Z pid =? api.pidNonce Z pid')
         && (api.pidAddress Z pid =? api.pidAddress Z pid')
      then inr (pub, priv) else inl "not found"%string
  | None => inl "not found"%string
  end.

Definition hex_DecodeString (s : string) : string + list byte :=
  if String.eqb s "0102" then inr [x01; x02] else inl "invalid byte"%string.

Definition post : Storage -> list byte -> Storage * list (api.Event Z (Z * Z) Z) :=
  api.newProcess Z (Z * Z) Z Storage Decode AddrFromSignature GenerateKey
    (fun pub => pub) Marshal Store.

Definition get : Storage -> string -> list (api_get.Event) :=
  api_get.process Z (Z * Z) Z Storage hex_DecodeString Unmarshal Marshal
    (fun _ => "0x00"%string) Load (fun pub => pub).

End served.

(** Concrete values for the further properties. *)
Module samples.

Import elgamal examples emulated.

(** The bytes of the ciphertext [(G, 2G)]. *)
Definition wire_G : list byte :=
  Eval vm_compute in
    match Serialize (point := bjj.point) (conv := bjj.conv) store_two 1%positive with
    | Some bs => bs
    | None => []
    end.

(** What [ToGnark] returns for the ciphertext [(G, 2G)]. *)
Definition gnark_G : views.GnarkCiphertext :=
  Eval vm_compute in
    match views.ToGnark (point := bjj.point) (conv := bjj.conv) store_two 1%positive with
    | Some g => g
    | None => {| views.gC1 := {| views.X := 0; views.Y := 0 |};
                 views.gC2 := {| views.X := 0; views.Y := 0 |} |}
    end.


(** A parser of decimal numbers that knows one numeral. *)
Definition SetString10 (s : string) : option Z :=
  if String.eqb s "7" then Some 7 else None.

Definition inputs_a : list Element :=
  [ {| Limbs := [VInt 5; VUint64 7] |} ].
Definition inputs_b : list Element :=
  [ {| Limbs := [VBigIntPtr 5] |}; {| Limbs := [VString "7"] |} ].
Definition inputs_bad_type : list Element :=
  [ {| Limbs := [VInt 1; VOther "float64"; VInt 2] |} ].
Definition inputs_too_big : list Element :=
  [ {| Limbs := [VInt 1] |}; {| Limbs := [VBigInt (2 ^ 256)] |} ].

End samples.

(** * Properties *)

(** ** Byte encodings *)

Section byte_lemmas.

Import big arbo.

Lemma to_Z_range b : 0 <= bytes.to_Z b < 256.
Proof. unfold bytes.to_Z. pose proof (Byte.to_N_bounded b). lia. Qed.

Lemma to_of_Z z : bytes.to_Z (bytes.of_Z z) = z mod 256.
Proof.
  unfold bytes.to_Z, bytes.of_Z.
  pose proof (Z.mod_pos_bound z 256 ltac:(lia)) as Hr.
  destruct (Byte.of_N (Z.to_N (z mod 256))) as [b|] eqn:E.
  - apply Byte.to_of_N in E. rewrite E. lia.
  - apply Byte.of_N_None_iff in E. lia.
Qed.

Lemma of_to_Z b : bytes.of_Z (bytes.to_Z b) = b.
Proof.
  unfold bytes.of_Z. pose proof (to_Z_range b).
  rewrite Z.mod_small by lia. unfold bytes.to_Z. rewrite N2Z.id.
  now rewrite Byte.of_to_N.
Qed.

Lemma SetBytes_app b d :
  SetBytes (b ++ [d]) = SetBytes b * 256 + bytes.to_Z d.
Proof. unfold SetBytes. now rewrite fold_left_app. Qed.

Lemma SetBytes_rev b : SetBytes (rev b) = le_value b.
Proof.
  induction b as [|d b IH]; [reflexivity|].
  cbn [rev le_value]. rewrite SetBytes_app, IH. lia.
Qed.

Lemma BytesToBigInt_le b : BytesToBigInt b = le_value b.
Proof. apply SetBytes_rev. Qed.

Lemma le_value_app a b :
  le_value (a ++ b) = le_value a + 256 ^ Z.of_nat (length a) * le_value b.
Proof.
  induction a as [|d a IH]; cbn [app le_value length].
  - change (256 ^ Z.of_nat 0) with 1. lia.
  - rewrite IH, Nat2Z.inj_succ, Z.pow_succ_r by lia. lia.
Qed.

Lemma le_value_zeros n : le_value (replicate n x00) = 0.
Proof. induction n as [|n IH]; cbn [replicate le_value]; [|rewrite IH]; reflexivity. Qed.

Lemma le_value_range b : 0 <= le_value b < 256 ^ Z.of_nat (length b).
Proof.
  induction b as [|d b IH]; cbn [le_value length].
  - change (256 ^ Z.of_nat 0) with 1. lia.
  - pose proof (to_Z_range d).
    rewrite Nat2Z.inj_succ, Z.pow_succ_r by lia. lia.
Qed.

Lemma le_digits_value fuel n :
  0 <= n < 256 ^ Z.of_nat fuel -> le_value (le_digits fuel n) = n.
Proof.
  revert n. induction fuel as [|fuel IH]; intros n Hn.
  - change (256 ^ Z.of_nat 0) with 1 in Hn. cbn. lia.
  - cbn [le_digits]. destruct (Z.eqb_spec n 0) as [->|Hne]; [reflexivity|].
    cbn [le_value]. rewrite to_of_Z, IH.
    + pose proof (Z.div_mod n 256 ltac:(lia)). lia.
    + rewrite Nat2Z.inj_succ, Z.pow_succ_r in Hn by lia.
      split; [apply Z.div_pos; lia|].
      apply Z.div_lt_upper_bound; lia.
Qed.

Lemma le_digits_length fuel k n :
  0 <= n < 256 ^ Z.of_nat k -> (length (le_digits fuel n) <= k)%nat.
Proof.
  revert k n. induction fuel as [|fuel IH]; intros k n Hn; [cbn; lia|].
  cbn [le_digits]. destruct (Z.eqb_spec n 0) as [->|Hne]; [cbn; lia|].
  destruct k as [|k].
  - change (256 ^ Z.of_nat 0) with 1 in Hn. lia.
  - cbn [length]. apply le_n_S, IH.
    rewrite Nat2Z.inj_succ, Z.pow_succ_r in Hn by lia.
    split; [apply Z.div_pos; lia|].
    apply Z.div_lt_upper_bound; lia.
Qed.

Lemma digits_fuel_enough n : 0 <= n -> n < 256 ^ Z.of_nat (digits_fuel n).
Proof.
  intros Hn. unfold digits_fuel.
  destruct (Z.eq_dec n 0) as [->|Hne]; [reflexivity|].
  pose proof (Z.log2_nonneg n).
  rewrite Nat2Z.inj_succ, Z2Nat.id by lia.
  apply Z.lt_le_trans with (2 ^ Z.succ (Z.log2 n)).
  - apply Z.log2_spec. lia.
  - apply Z.pow_le_mono_l. lia.
Qed.

(** The byte-swapped [Bytes] of a non-negative integer are its
    little-endian digits. *)
Lemma le_value_swap_Bytes n :
  0 <= n -> le_value (SwapEndianness (Bytes n)) = n.
Proof.
  intros Hn. unfold SwapEndianness, Bytes.
  rewrite rev_involutive, Z.abs_eq by lia.
  apply le_digits_value. split; [lia|]. now apply digits_fuel_enough.
Qed.

Lemma Bytes_length k n :
  0 <= n < 256 ^ Z.of_nat k -> (length (Bytes n) <= k)%nat.
Proof.
  intros Hn. unfold Bytes. rewrite length_rev, Z.abs_eq by lia.
  now apply le_digits_length.
Qed.

Lemma copy_length dst src : length (copy dst src) = length dst.
Proof. unfold copy. rewrite length_app, length_take, length_drop. lia. Qed.

Lemma BigIntToBytes_length blen bi : length (BigIntToBytes blen bi) = blen.
Proof. unfold BigIntToBytes. now rewrite copy_length, length_replicate. Qed.

Lemma le_value_take k b :
  le_value (take k b) = le_value b mod 256 ^ Z.of_nat k.
Proof.
  revert b. induction k as [|k IH]; intros b.
  - rewrite take_0. change (256 ^ Z.of_nat 0) with 1. now rewrite Z.mod_1_r.
  - destruct b as [|d b]; [now rewrite take_nil, Z.mod_0_l by lia|].
    cbn [take le_value]. rewrite IH.
    rewrite Nat2Z.inj_succ, Z.pow_succ_r by lia.
    pose proof (to_Z_range d) as Hd.
    assert (HM : 0 < 256 ^ Z.of_nat k) by (apply Z.pow_pos_nonneg; lia).
    pose proof (Z.mod_pos_bound (le_value b) _ HM) as Hm.
    pose proof (Z.div_mod (le_value b) (256 ^ Z.of_nat k) ltac:(lia)) as Hdm.
    set (M := 256 ^ Z.of_nat k) in *.
    set (v := le_value b) in *.
    apply Z.mod_unique with (q := v / M); [lia|].
    replace (256 * M * (v / M)) with (256 * (M * (v / M))) by ring. lia.
Qed.

(** The bytes of [BigIntToBytes] are the little-endian digits of the
    absolute value, cut to [blen] digits. *)
Lemma le_value_BigIntToBytes blen n :
  le_value (BigIntToBytes blen n) = Z.abs n mod 256 ^ Z.of_nat blen.
Proof.
  unfold BigIntToBytes, copy.
  rewrite length_replicate, drop_replicate, le_value_app, le_value_zeros.
  rewrite le_value_take.
  assert (Hb : Bytes n = Bytes (Z.abs n)).
  { unfold Bytes. now rewrite Z.abs_idemp. }
  rewrite Hb, le_value_swap_Bytes by lia. lia.
Qed.

(** Decoding inverts encoding on the integers that fit in [blen] bytes. *)
Lemma BytesToBigInt_BigIntToBytes blen n :
  0 <= n < 256 ^ Z.of_nat blen ->
  BytesToBigInt (BigIntToBytes blen n) = n.
Proof.
  intros Hn. rewrite BytesToBigInt_le, le_value_BigIntToBytes.
  rewrite Z.abs_eq, Z.mod_small; lia.
Qed.

End byte_lemmas.
(** ** The wire encoding of ciphertexts *)

Section Encoding.

Import ecc format elgamal.

Context {P : Type} {point : ecc.Point P} {arith : ecc.Arith P} {conv : format.Conv}.

Implicit Types (σ : state (P := P)) (z : loc) (data : list byte).

Local Arguments readBigInt : simpl never.
Local Arguments arbo.BigIntToBytes : simpl never.
Local Arguments arbo.BytesToBigInt : simpl never.

Lemma enc_length c : length (enc c) = 32%nat.
Proof. apply BigIntToBytes_length. Qed.

Lemma Serialize_eq σ z cz p1 p2 :
  ciphertexts σ !! z = Some cz ->
  points σ !! C1 cz = Some p1 ->
  points σ !! C2 cz = Some p2 ->
  Serialize σ z =
    Some (enc (FromTEtoRTE (coords p1)).1 ++ enc (FromTEtoRTE (coords p1)).2 ++
          enc (FromTEtoRTE (coords p2)).1 ++ enc (FromTEtoRTE (coords p2)).2).
Proof.
  intros Hz H1 H2. unfold Serialize. rewrite Hz. cbn. rewrite H1. cbn.
  destruct (FromTEtoRTE (coords p1)) as [c1x c1y].
  rewrite H2. cbn.
  destruct (FromTEtoRTE (coords p2)) as [c2x c2y]. cbn.
  unfold buf_Write, enc. now rewrite <- !app_assoc.
Qed.

(** The four 32-byte windows that [readBigInt] reads. *)
Lemma readBigInt_chunks (a b c d : list byte) :
  length a = 32%nat -> length b = 32%nat -> length c = 32%nat -> length d = 32%nat ->
  readBigInt (a ++ b ++ c ++ d) (0 * sizePointCoord) = arbo.BytesToBigInt a /\
  readBigInt (a ++ b ++ c ++ d) (1 * sizePointCoord) = arbo.BytesToBigInt b /\
  readBigInt (a ++ b ++ c ++ d) (2 * sizePointCoord) = arbo.BytesToBigInt c /\
  readBigInt (a ++ b ++ c ++ d) (3 * sizePointCoord) = arbo.BytesToBigInt d.
Proof.
  intros Ha Hb Hc Hd. unfold readBigInt, sizePointCoord.
  change (0 * 32)%nat with 0%nat. change (1 * 32)%nat with 32%nat.
  change (2 * 32)%nat with (32 + 32)%nat. change (3 * 32)%nat with (32 + (32 + 32))%nat.
  repeat split.
  - now rewrite drop_0, take_app_length'.
  - now rewrite drop_app_length', take_app_length'.
  - rewrite <- drop_drop, drop_app_length' by done.
    now rewrite drop_app_length', take_app_length'.
  - rewrite <- drop_drop, drop_app_length' by done.
    rewrite <- drop_drop, drop_app_length' by done.
    rewrite drop_app_length' by done.
    rewrite take_ge by lia. done.
Qed.

(** What [Deserialize] does with an input of 128 bytes, on a receiver
    whose struct and two point objects exist. *)
Lemma Deserialize_128 σ z data cz q1 q2 :
  length data = 128%nat ->
  ciphertexts σ !! z = Some cz ->
  points σ !! C1 cz = Some q1 ->
  points σ !! C2 cz = Some q2 ->
  let te1 := FromRTEtoTE (readBigInt data 0, readBigInt data 32) in
  let te2 := FromRTEtoTE (readBigInt data 64, readBigInt data 96) in
  Deserialize σ z data =
    Some ({| points := <[C2 cz := SetPoint te2.1 te2.2]>
                         (<[C1 cz := SetPoint te1.1 te1.2]> (points σ));
             ciphertexts := <[z := cz]> (ciphertexts σ) |}, None).
Proof.
  intros Hlen Hz H1 H2 te1 te2. unfold Deserialize. rewrite Hlen.
  change (negb (128 =? 4 * sizePointCoord)%nat) with false. cbn iota.
  rewrite Hz. cbn. unfold call_SetPoint. rewrite H1. cbn.
  assert (H2' : <[C1 cz := SetPoint te1.1 te1.2]> (points σ) !! C2 cz
                = Some (if decide (C1 cz = C2 cz) then SetPoint te1.1 te1.2 else q2)).
  { rewrite lookup_insert. destruct (decide (C1 cz = C2 cz)); [done|].
    now rewrite H2. }
  unfold sizePointCoord in *.
  change (0 * 32)%nat with 0%nat. change (1 * 32)%nat with 32%nat.
  change (2 * 32)%nat with 64%nat. change (3 * 32)%nat with 96%nat.
  fold te1. rewrite H2'. cbn. fold te2. destruct cz; done.
Qed.

(** C2.  [Serialize] of a ciphertext whose struct and point objects exist
    returns exactly 128 bytes: the 32-byte encodings of [C1.x], [C1.y],
    [C2.x], [C2.y] after [FromTEtoRTE], in this order; each encoding is the
    little-endian digit string of the coordinate's absolute value cut to 32
    digits, so it reads back as the coordinate whenever that lies in
    [[0, 2^256)]. *)
Theorem Serialize_layout σ z cz p1 p2 :
  ciphertexts σ !! z = Some cz ->
  points σ !! C1 cz = Some p1 ->
  points σ !! C2 cz = Some p2 ->
  let c1 := FromTEtoRTE (coords p1) in
  let c2 := FromTEtoRTE (coords p2) in
  exists bs,
    Serialize σ z = Some bs /\
    length bs = 128%nat /\
    bs = arbo.BigIntToBytes 32 c1.1 ++ arbo.BigIntToBytes 32 c1.2 ++
         arbo.BigIntToBytes 32 c2.1 ++ arbo.BigIntToBytes 32 c2.2 /\
    Forall (fun c =>
              length (arbo.BigIntToBytes 32 c) = 32%nat /\
              big.le_value (arbo.BigIntToBytes 32 c) = Z.abs c mod 2 ^ 256 /\
              (0 <= c < 2 ^ 256 -> arbo.BytesToBigInt (arbo.BigIntToBytes 32 c) = c))
           [c1.1; c1.2; c2.1; c2.2].
Proof.
  intros Hz H1 H2 c1 c2. eexists. split; [exact (Serialize_eq σ z cz p1 p2 Hz H1 H2)|].
  split; [rewrite !length_app, !enc_length; reflexivity|].
  split; [reflexivity|].
  repeat constructor.
  all: try apply BigIntToBytes_length.
  all: try (rewrite le_value_BigIntToBytes; reflexivity).
  all: intros Hc; now apply BytesToBigInt_BigIntToBytes.
Qed.

(** C1.  For a ciphertext [z] whose two points are valid, and a receiver
    [w] whose struct refers to two distinct existing point objects,
    [Serialize] succeeds and [Deserialize] of its result returns no error
    and leaves in [w] two points with the coordinates of those of [z]. *)
Theorem Deserialize_Serialize (valid : P -> Prop) `{!laws.Encoding P valid}
    σ z w cz cw p1 p2 q1 q2 :
  ciphertexts σ !! z = Some cz ->
  points σ !! C1 cz = Some p1 ->
  points σ !! C2 cz = Some p2 ->
  valid p1 -> valid p2 ->
  ciphertexts σ !! w = Some cw ->
  points σ !! C1 cw = Some q1 ->
  points σ !! C2 cw = Some q2 ->
  C1 cw <> C2 cw ->
  exists bs σ' r1 r2,
    Serialize σ z = Some bs /\
    Deserialize σ w bs = Some (σ', None) /\
    value σ' w = Some (r1, r2) /\
    coords r1 = coords p1 /\ coords r2 = coords p2.
Proof.
  intros Hz H1 H2 V1 V2 Hw Hq1 Hq2 Hne.
  pose proof (Serialize_eq σ z cz p1 p2 Hz H1 H2) as HS.
  set (c1 := FromTEtoRTE (coords p1)) in *.
  set (c2 := FromTEtoRTE (coords p2)) in *.
  destruct (laws.FromTEtoRTE_fits p1 V1) as [F1x F1y].
  destruct (laws.FromTEtoRTE_fits p2 V2) as [F2x F2y].
  fold c1 in F1x, F1y. fold c2 in F2x, F2y.
  destruct (readBigInt_chunks (enc c1.1) (enc c1.2) (enc c2.1) (enc c2.2))
    as (R0 & R1 & R2 & R3); try apply enc_length.
  unfold sizePointCoord in R0, R1, R2, R3.
  change (0 * 32)%nat with 0%nat in R0. change (1 * 32)%nat with 32%nat in R1.
  change (2 * 32)%nat with 64%nat in R2. change (3 * 32)%nat with 96%nat in R3.
  unfold enc in R0, R1, R2, R3.
  rewrite BytesToBigInt_BigIntToBytes in R0, R1, R2, R3 by assumption.
  eexists _, _, _, _. split; [exact HS|].
  split.
  { apply (Deserialize_128 σ w _ cw q1 q2); try assumption.
    rewrite !length_app, !enc_length. reflexivity. }
  unfold enc. rewrite R0, R1, R2, R3.
  rewrite <- !surjective_pairing.
  unfold c1, c2. rewrite !laws.FromRTEtoTE_FromTEtoRTE by assumption.
  split.
  { unfold value. cbn [ciphertexts points].
    rewrite lookup_insert_eq. cbn [mbind option_bind].
    rewrite (lookup_insert_ne _ (C2 cw) (C1 cw)), lookup_insert_eq by congruence.
    cbn [mbind option_bind].
    rewrite lookup_insert_eq. reflexivity. }
  split; now apply laws.coords_SetPoint.
Qed.

(** C5.  On an input whose length is not 128, [Deserialize] returns the
    length error, which names the length got and the length expected, and
    the store it leaves is the one it was given: neither [C1] nor [C2] of
    the receiver is touched. *)
Theorem Deserialize_length_guard σ z data :
  length data <> 128%nat ->
  Deserialize σ z data = Some (σ, Some (ErrInvalidInputLength (length data) 128)) /\
  Error (ErrInvalidInputLength (length data) 128) =
    ("invalid input length: got " ++ decimal (length data)
       ++ " bytes, expected 128 bytes")%string.
Proof.
  intros Hlen. split; [|reflexivity].
  unfold Deserialize, sizePointCoord. change (4 * 32)%nat with 128%nat.
  destruct (Nat.eqb_spec (length data) 128) as [E|_]; [contradiction|reflexivity].
Qed.

(** C6 (as the code has it).  On every input of 128 bytes, and a receiver
    whose struct and point objects exist, [Deserialize] returns no error:
    each point is overwritten with [SetPoint] of the converted decoded
    chunks, whatever they are. *)
Theorem Deserialize_128_no_error σ z data cz q1 q2 :
  length data = 128%nat ->
  ciphertexts σ !! z = Some cz ->
  points σ !! C1 cz = Some q1 ->
  points σ !! C2 cz = Some q2 ->
  exists σ',
    Deserialize σ z data = Some (σ', None) /\
    points σ' !! C2 cz =
      Some (let te := FromRTEtoTE (readBigInt data 64, readBigInt data 96) in
            SetPoint te.1 te.2) /\
    (C1 cz <> C2 cz ->
     points σ' !! C1 cz =
       Some (let te := FromRTEtoTE (readBigInt data 0, readBigInt data 32) in
             SetPoint te.1 te.2)).
Proof.
  intros Hlen Hz H1 H2. eexists. split.
  { now apply (Deserialize_128 σ z data cz q1 q2). }
  cbn. split.
  - now rewrite lookup_insert_eq.
  - intros Hne. now rewrite lookup_insert_ne, lookup_insert_eq by congruence.
Qed.

End Encoding.

(** ** Encryption and homomorphic addition *)

Section Algebra.

Import ecc format elgamal.

Context {P : Type} {point : ecc.Point P} {arith : ecc.Arith P} {conv : format.Conv}.

Implicit Types (σ : state (P := P)) (z x y w : loc) (pts : gmap loc P).

Lemma value_Some σ c v :
  value σ c = Some v <->
  exists cc, ciphertexts σ !! c = Some cc /\
             points σ !! C1 cc = Some v.1 /\ points σ !! C2 cc = Some v.2.
Proof.
  unfold value. split.
  - destruct (ciphertexts σ !! c) as [cc|]; [|done]. cbn.
    destruct (points σ !! C1 cc) as [p1|] eqn:E1; [|done]. cbn.
    destruct (points σ !! C2 cc) as [p2|] eqn:E2; [|done]. cbn.
    intros [= <-]. exists cc. cbn. auto.
  - intros (cc & -> & H1 & H2). cbn. rewrite H1. cbn. rewrite H2. cbn.
    now destruct v.
Qed.

Lemma call_SafeAdd_Some pts r a b pr pa pb :
  pts !! r = Some pr -> pts !! a = Some pa -> pts !! b = Some pb ->
  call_SafeAdd pts r a b = Some (<[r := SafeAdd pa pb]> pts).
Proof. intros Hr Ha Hb. unfold call_SafeAdd. now rewrite Hr, Ha, Hb. Qed.

Lemma lookup_insert_Some_any pts k (v p : P) l :
  pts !! l = Some p -> exists p', <[k := v]> pts !! l = Some p'.
Proof.
  intros Hl. rewrite lookup_insert. destruct (decide (k = l)); eauto.
Qed.

(** One run of [Add] on ciphertexts whose structs and point objects
    exist: the first [SafeAdd] writes the object [C1] of the receiver, the
    second reads the store so obtained and writes the object [C2]. *)
Lemma Add_run σ z x y cz cx cy vz vx vy :
  ciphertexts σ !! z = Some cz -> value σ z = Some vz ->
  ciphertexts σ !! x = Some cx -> value σ x = Some vx ->
  ciphertexts σ !! y = Some cy -> value σ y = Some vy ->
  exists a b,
    <[C1 cz := SafeAdd vx.1 vy.1]> (points σ) !! C2 cx = Some a /\
    <[C1 cz := SafeAdd vx.1 vy.1]> (points σ) !! C2 cy = Some b /\
    Add σ z x y =
      Some ({| points := <[C2 cz := SafeAdd a b]>
                           (<[C1 cz := SafeAdd vx.1 vy.1]> (points σ));
               ciphertexts := ciphertexts σ |}, z).
Proof.
  intros Hz Vz Hx Vx Hy Vy.
  apply value_Some in Vz as (cz' & Hz' & Z1 & Z2).
  apply value_Some in Vx as (cx' & Hx' & X1 & X2).
  apply value_Some in Vy as (cy' & Hy' & Y1 & Y2).
  assert (cz' = cz) as -> by congruence.
  assert (cx' = cx) as -> by congruence.
  assert (cy' = cy) as -> by congruence.
  destruct (lookup_insert_Some_any (points σ) (C1 cz) (SafeAdd vx.1 vy.1) _ _ Z2) as [c Hc].
  destruct (lookup_insert_Some_any (points σ) (C1 cz) (SafeAdd vx.1 vy.1) _ _ X2) as [a Ha].
  destruct (lookup_insert_Some_any (points σ) (C1 cz) (SafeAdd vx.1 vy.1) _ _ Y2) as [b Hb].
  exists a, b. split; [exact Ha|]. split; [exact Hb|].
  unfold Add. rewrite Hz, Hx, Hy. cbn [mbind option_bind].
  rewrite (call_SafeAdd_Some _ _ _ _ _ _ _ Z1 X1 Y1). cbn [mbind option_bind].
  now rewrite (call_SafeAdd_Some _ _ _ _ _ _ _ Hc Ha Hb).
Qed.

Lemma call_SafeAdd_frame pts pts' r a b l :
  call_SafeAdd pts r a b = Some pts' -> l <> r -> pts' !! l = pts !! l.
Proof.
  unfold call_SafeAdd. intros HA Hl.
  destruct (pts !! r); cbn [mbind option_bind] in HA; [|done].
  destruct (pts !! a); cbn [mbind option_bind] in HA; [|done].
  destruct (pts !! b); cbn [mbind option_bind] in HA; [|done].
  injection HA as <-. now rewrite lookup_insert_ne by congruence.
Qed.

(** Every point object other than the two of the receiver is left as it
    was, and no struct is written. *)
Lemma Add_frame_points σ σ' z x y cz r :
  ciphertexts σ !! z = Some cz ->
  Add σ z x y = Some (σ', r) ->
  r = z /\ ciphertexts σ' = ciphertexts σ /\
  forall l, l <> C1 cz -> l <> C2 cz -> points σ' !! l = points σ !! l.
Proof.
  intros Hz. unfold Add. rewrite Hz. cbn [mbind option_bind].
  intros HA.
  destruct (ciphertexts σ !! x) as [cx|]; cbn [mbind option_bind] in HA; [|done].
  destruct (ciphertexts σ !! y) as [cy|]; cbn [mbind option_bind] in HA; [|done].
  destruct (call_SafeAdd (points σ) _ _ _) as [pts1|] eqn:E1;
    cbn [mbind option_bind] in HA; [|done].
  destruct (call_SafeAdd pts1 _ _ _) as [pts2|] eqn:E2;
    cbn [mbind option_bind] in HA; [|done].
  injection HA as <- <-. cbn [ciphertexts points]. repeat split.
  intros l N1 N2.
  rewrite (call_SafeAdd_frame _ _ _ _ _ _ E2 N2).
  now rewrite (call_SafeAdd_frame _ _ _ _ _ _ E1 N1).
Qed.

Lemma Add_frame_value σ σ' z x y cz c cc :
  ciphertexts σ !! z = Some cz ->
  Add σ z x y = Some (σ', z) ->
  ciphertexts σ !! c = Some cc ->
  separate cz cc ->
  value σ' c = value σ c.
Proof.
  intros Hz HA Hc (N1 & N2 & N3 & N4).
  destruct (Add_frame_points _ _ _ _ _ _ _ Hz HA) as (_ & Hcts & Hpts).
  unfold value. rewrite Hcts, Hc. cbn [mbind option_bind].
  now rewrite !Hpts by assumption.
Qed.

(** When the object [C1] of the receiver is not also its [C2], nor the
    [C2] of an argument, the receiver ends with the coordinate-wise
    sums. *)
Lemma Add_stores σ z x y cz cx cy vz vx vy :
  ciphertexts σ !! z = Some cz -> value σ z = Some vz ->
  ciphertexts σ !! x = Some cx -> value σ x = Some vx ->
  ciphertexts σ !! y = Some cy -> value σ y = Some vy ->
  C1 cz <> C2 cz -> C1 cz <> C2 cx -> C1 cz <> C2 cy ->
  exists σ', Add σ z x y = Some (σ', z) /\
             ciphertexts σ' = ciphertexts σ /\
             value σ' z = Some (add_value vx vy).
Proof.
  intros Hz Vz Hx Vx Hy Vy Nz Nx Ny.
  destruct (Add_run σ z x y cz cx cy vz vx vy Hz Vz Hx Vx Hy Vy)
    as (a & b & Ha & Hb & HA).
  apply value_Some in Vx as (cx' & Hx' & X1 & X2).
  apply value_Some in Vy as (cy' & Hy' & Y1 & Y2).
  assert (cx' = cx) as -> by congruence.
  assert (cy' = cy) as -> by congruence.
  rewrite lookup_insert_ne in Ha, Hb by assumption.
  assert (a = vx.2) as -> by congruence.
  assert (b = vy.2) as -> by congruence.
  eexists. split; [exact HA|]. split; [reflexivity|].
  unfold value. cbn [ciphertexts points]. rewrite Hz. cbn [mbind option_bind].
  rewrite (lookup_insert_ne _ (C2 cz) (C1 cz)), lookup_insert_eq by congruence.
  cbn [mbind option_bind]. now rewrite lookup_insert_eq.
Qed.

(** [Add] is symmetric in its two arguments, whatever objects they
    share. *)
Lemma Add_comm `{!laws.Group P} σ z x y cz cx cy vz vx vy :
  ciphertexts σ !! z = Some cz -> value σ z = Some vz ->
  ciphertexts σ !! x = Some cx -> value σ x = Some vx ->
  ciphertexts σ !! y = Some cy -> value σ y = Some vy ->
  Add σ z x y = Add σ z y x.
Proof.
  intros Hz Vz Hx Vx Hy Vy.
  destruct (Add_run σ z x y cz cx cy vz vx vy Hz Vz Hx Vx Hy Vy)
    as (a & b & Ha & Hb & ->).
  destruct (Add_run σ z y x cz cy cx vz vy vx Hz Vz Hy Vy Hx Vx)
    as (b' & a' & Hb' & Ha' & ->).
  rewrite (laws.SafeAdd_comm vy.1 vx.1) in Hb', Ha' |- *.
  assert (a' = a) as -> by congruence.
  assert (b' = b) as -> by congruence.
  now rewrite (laws.SafeAdd_comm b a).
Qed.

Lemma add_value_comm `{!laws.Group P} (a b : P * P) :
  add_value a b = add_value b a.
Proof. unfold add_value. now rewrite (laws.SafeAdd_comm a.1), (laws.SafeAdd_comm a.2). Qed.

Lemma add_value_assoc `{!laws.Group P} (a b c : P * P) :
  add_value (add_value a b) c = add_value a (add_value b c).
Proof. unfold add_value. cbn. now rewrite !laws.SafeAdd_assoc. Qed.

Lemma alloc_point_fresh pts (p : P) :
  pts !! (alloc_point pts p).2 = None /\
  (alloc_point pts p).1 = <[(alloc_point pts p).2 := p]> pts.
Proof.
  unfold alloc_point. cbn. split; [|reflexivity].
  apply not_elem_of_dom. apply is_fresh.
Qed.

(** C7.  With a caller-provided [k], [Encrypt] returns the receiver and no
    error, and leaves in it [C1 = g^k] and [C2 = message·g + k·publicKey];
    whatever [k] is, an error comes back only when [k] is nil and the
    random generator failed. *)
Theorem Encrypt_with_k σ z message publicKey k randK cz pk :
  ciphertexts σ !! z = Some cz ->
  points σ !! publicKey = Some pk ->
  (exists σ',
     Encrypt σ z message publicKey (Some k) randK = Some (σ', (Some z, None)) /\
     value σ' z =
       Some (ScalarBaseMult k, SafeAdd (ScalarBaseMult message) (ScalarMult pk k))) /\
  (forall k0 σ' r e,
     Encrypt σ z message publicKey k0 randK = Some (σ', (r, Some e)) ->
     k0 = None /\ r = None /\ σ' = σ /\
     exists e0, randK = inl e0 /\ e = ErrEncryptionFailed e0).
Proof.
  intros Hz Hpk.
  assert (Hrun : forall k1,
    exists σ', Encrypt σ z message publicKey (Some k1) randK = Some (σ', (Some z, None)) /\
      value σ' z =
        Some (ScalarBaseMult k1, SafeAdd (ScalarBaseMult message) (ScalarMult pk k1))).
  { intros k1. unfold Encrypt, EncryptWithK. rewrite Hpk. cbn [mbind option_bind].
    set (v1 := ScalarBaseMult k1).
    set (v2 := SafeAdd (ScalarBaseMult message) (ScalarMult pk k1)).
    destruct (alloc_point_fresh (points σ) v1) as [F1 E1].
    destruct (alloc_point (points σ) v1) as [pts1 c1] eqn:A1. cbn [fst snd] in F1, E1.
    destruct (alloc_point_fresh pts1 v2) as [F2 E2].
    destruct (alloc_point pts1 v2) as [pts2 c2] eqn:A2. cbn [fst snd] in F2, E2.
    cbn [mbind option_bind ciphertexts points]. rewrite Hz. cbn [mbind option_bind].
    eexists. split; [reflexivity|].
    assert (c2 <> c1).
    { intros ->. rewrite E1, lookup_insert_eq in F2. done. }
    unfold value. cbn [ciphertexts points C1 C2].
    rewrite lookup_insert_eq. cbn [mbind option_bind C1 C2].
    rewrite E2, E1.
    rewrite (lookup_insert_ne _ c2 c1), lookup_insert_eq by assumption.
    cbn [mbind option_bind]. now rewrite lookup_insert_eq. }
  split; [apply Hrun|].
  intros k0 σ' r e HE. destruct k0 as [k1|].
  - destruct (Hrun k1) as (σ1 & HE1 & _). rewrite HE1 in HE. done.
  - unfold Encrypt in HE. destruct randK as [e0|k1].
    + injection HE as <- <- <-. eauto 10.
    + destruct (Hrun k1) as (σ1 & HE1 & _). unfold Encrypt in HE1.
      rewrite HE1 in HE. done.
Qed.

(** C10 (as the code has it).  [Add] returns the receiver; it writes no
    struct and no point object other than the two the receiver refers to,
    where it leaves the coordinate-wise sums (when the receiver's [C1]
    object is not also its [C2] or the [C2] of an argument); an argument
    that refers to neither of the receiver's point objects keeps its
    value. *)
Theorem Add_receiver_frame σ z x y cz cx cy vz vx vy :
  ciphertexts σ !! z = Some cz -> value σ z = Some vz ->
  ciphertexts σ !! x = Some cx -> value σ x = Some vx ->
  ciphertexts σ !! y = Some cy -> value σ y = Some vy ->
  exists σ',
    Add σ z x y = Some (σ', z) /\
    ciphertexts σ' = ciphertexts σ /\
    (forall l, l <> C1 cz -> l <> C2 cz -> points σ' !! l = points σ !! l) /\
    (C1 cz <> C2 cz -> C1 cz <> C2 cx -> C1 cz <> C2 cy ->
     value σ' z = Some (add_value vx vy)) /\
    (separate cz cx -> value σ' x = Some vx) /\
    (separate cz cy -> value σ' y = Some vy).
Proof.
  intros Hz Vz Hx Vx Hy Vy.
  destruct (Add_run σ z x y cz cx cy vz vx vy Hz Vz Hx Vx Hy Vy)
    as (a & b & _ & _ & HA).
  eexists. split; [exact HA|].
  destruct (Add_frame_points _ _ _ _ _ _ _ Hz HA) as (_ & Hcts & Hpts).
  split; [exact Hcts|]. split; [exact Hpts|]. split; [|split].
  - intros Nz Nx Ny.
    destruct (Add_stores σ z x y cz cx cy vz vx vy Hz Vz Hx Vx Hy Vy Nz Nx Ny)
      as (σ1 & HA1 & _ & HV).
    rewrite HA in HA1. injection HA1 as <-. exact HV.
  - intros Hs. rewrite <- Vx. now apply (Add_frame_value σ _ z x y cz x cx).
  - intros Hs. rewrite <- Vy. now apply (Add_frame_value σ _ z x y cz y cy).
Qed.

(** C8 (as the code has it).  On ciphertexts whose structs and point
    objects exist [Add] never fails; it is not pure: it overwrites the two
    point objects of the receiver with the coordinate-wise sums (when the
    receiver's [C1] object is not also its [C2] or the [C2] of an
    argument) and leaves every ciphertext that shares no point object with
    the receiver as it was.  It is symmetric in its arguments, the sum of
    values is commutative and associative, and accumulating [x + y] and
    then [w] in a receiver yields [x + (y + w)]. *)
Theorem Add_homomorphic `{!laws.Group P} σ z x y cz cx cy vz vx vy :
  ciphertexts σ !! z = Some cz -> value σ z = Some vz ->
  ciphertexts σ !! x = Some cx -> value σ x = Some vx ->
  ciphertexts σ !! y = Some cy -> value σ y = Some vy ->
  (exists σ',
     Add σ z x y = Some (σ', z) /\
     (C1 cz <> C2 cz -> C1 cz <> C2 cx -> C1 cz <> C2 cy ->
      value σ' z = Some (add_value vx vy)) /\
     (forall c cc, ciphertexts σ !! c = Some cc -> separate cz cc ->
                   value σ' c = value σ c)) /\
  Add σ z x y = Add σ z y x /\
  add_value vx vy = add_value vy vx /\
  (forall vw, add_value (add_value vx vy) vw = add_value vx (add_value vy vw)) /\
  (forall w cw vw,
     ciphertexts σ !! w = Some cw -> value σ w = Some vw ->
     C1 cz <> C2 cz -> C1 cz <> C2 cx -> C1 cz <> C2 cy -> separate cz cw ->
     exists σ1 σ2,
       Add σ z x y = Some (σ1, z) /\ Add σ1 z z w = Some (σ2, z) /\
       value σ2 z = Some (add_value vx (add_value vy vw))).
Proof.
  intros Hz Vz Hx Vx Hy Vy.
  destruct (Add_run σ z x y cz cx cy vz vx vy Hz Vz Hx Vx Hy Vy)
    as (a & b & _ & _ & HA).
  split; [|split; [|split; [|split]]].
  - eexists. split; [exact HA|]. split.
    + intros Nz Nx Ny.
      destruct (Add_stores σ z x y cz cx cy vz vx vy Hz Vz Hx Vx Hy Vy Nz Nx Ny)
        as (σ1 & HA1 & _ & HV).
      rewrite HA in HA1. injection HA1 as <-. exact HV.
    + intros c cc Hc Hs. now apply (Add_frame_value σ _ z x y cz c cc).
  - now apply (Add_comm σ z x y cz cx cy vz vx vy).
  - apply add_value_comm.
  - intros vw. apply add_value_assoc.
  - intros w cw vw Hw Vw Nz Nx Ny Hs.
    destruct (Add_stores σ z x y cz cx cy vz vx vy Hz Vz Hx Vx Hy Vy Nz Nx Ny)
      as (σ1 & HA1 & Hcts & HV).
    assert (Vw1 : value σ1 w = Some vw).
    { rewrite <- Vw. now apply (Add_frame_value σ _ z x y cz w cw). }
    rewrite <- Hcts in Hz, Hw.
    destruct Hs as (_ & _ & S3 & _).
    destruct (Add_stores σ1 z z w cz cz cw _ _ _ Hz HV Hz HV Hw Vw1 Nz Nz
                ltac:(congruence)) as (σ2 & HA2 & _ & HV2).
    exists σ1, σ2. split; [exact HA1|]. split; [exact HA2|].
    now rewrite HV2, add_value_assoc.
Qed.

End Algebra.

(** ** The instances satisfy the assumptions *)

Lemma zn_group : laws.Group Z (point := zn.point).
Proof.
  split; cbn; intros.
  - now rewrite Z.add_comm.
  - now rewrite Zplus_mod_idemp_l, Zplus_mod_idemp_r, Z.add_assoc.
Qed.

Lemma bjj_conv_inverse :
  (((- bjj.scalingFactor) mod bjj.q) * Z.invmod ((- bjj.scalingFactor) mod bjj.q) bjj.q)
    mod bjj.q = 1.
Proof. vm_compute. reflexivity. Qed.

Lemma bjj_encoding :
  laws.Encoding (Z * Z) (point := bjj.point) (conv := bjj.conv)
    (fun p => bjj.on_curve p = true).
Proof.
  assert (Hq : bjj.q < 2 ^ 256) by (vm_compute; reflexivity).
  assert (Hq0 : 0 < bjj.q) by (vm_compute; reflexivity).
  split; intros [x y] Hv; unfold bjj.on_curve in Hv;
    repeat (apply andb_prop in Hv as [Hv ?]);
    repeat match goal with
           | H : (_ <=? _) = true |- _ => apply Z.leb_le in H
           | H : (_ <? _) = true |- _ => apply Z.ltb_lt in H
           end.
  - cbn [format.FromRTEtoTE format.FromTEtoRTE bjj.conv ecc.coords bjj.point fst snd].
    f_equal. rewrite Z.mul_mod_idemp_l by lia.
    rewrite <- Z.mul_assoc, <- Z.mul_mod_idemp_r by lia.
    rewrite bjj_conv_inverse, Z.mul_1_r. apply Z.mod_small. lia.
  - cbn [format.FromTEtoRTE bjj.conv ecc.coords bjj.point fst snd].
    pose proof (Z.mod_pos_bound (x * (- bjj.scalingFactor mod bjj.q)) bjj.q Hq0).
    lia.
  - cbn [ecc.coords ecc.SetPoint bjj.point fst snd].
    rewrite !Z.mod_small by lia. reflexivity.
Qed.

(** ** The theorems at concrete inputs *)

Section Witnesses.

Import ecc format elgamal examples.

Lemma Deserialize_Serialize_witness :
  exists bs σ' r1 r2,
    Serialize (point := bjj.point) (conv := bjj.conv) store_two 1%positive = Some bs /\
    Deserialize (point := bjj.point) (conv := bjj.conv) store_two 2%positive bs
      = Some (σ', None) /\
    value σ' 2%positive = Some (r1, r2) /\
    r1 = bjj.G /\ r2 = G2.
Proof.
  apply (Deserialize_Serialize (point := bjj.point) (conv := bjj.conv)
           (fun p => bjj.on_curve p = true) (H := bjj_encoding)
           store_two 1%positive 2%positive
           {| C1 := 1; C2 := 2 |} {| C1 := 3; C2 := 4 |} bjj.G G2 G3 G5).
  all: try (vm_compute; reflexivity).
  cbn. discriminate.
Defined.

Lemma Serialize_layout_witness :
  exists bs,
    Serialize (point := bjj.point) (conv := bjj.conv) store_two 1%positive = Some bs /\
    length bs = 128%nat.
Proof.
  destruct (Serialize_layout (point := bjj.point) (conv := bjj.conv)
              store_two 1%positive {| C1 := 1; C2 := 2 |} bjj.G G2
              eq_refl eq_refl eq_refl) as (bs & HS & HL & _).
  exists bs. split; assumption.
Defined.

Lemma Deserialize_length_guard_witness :
  Deserialize (point := bjj.point) (conv := bjj.conv) store_two 1%positive [x01; x02; x03]
    = Some (store_two, Some (ErrInvalidInputLength 3 128)) /\
  Error (ErrInvalidInputLength 3 128)
    = "invalid input length: got 3 bytes, expected 128 bytes"%string.
Proof.
  apply (Deserialize_length_guard (point := bjj.point) (conv := bjj.conv)
           store_two 1%positive [x01; x02; x03]).
  cbn. discriminate.
Defined.

Lemma Deserialize_128_no_error_witness :
  exists σ',
    Deserialize (point := bjj.point) (conv := bjj.conv) store_two 1%positive
      (replicate 128 x00) = Some (σ', None).
Proof.
  destruct (Deserialize_128_no_error (point := bjj.point) (conv := bjj.conv)
              store_two 1%positive (replicate 128 x00) {| C1 := 1; C2 := 2 |} bjj.G G2
              eq_refl eq_refl eq_refl eq_refl) as (σ' & HD & _).
  exists σ'. exact HD.
Defined.

(** C6, the claim fails.  128 zero bytes decode to the pair [(0, 0)],
    which is not on the curve, and 128 bytes [0xff] to chunks above the
    field modulus; [Deserialize] returns no error on either and leaves the
    off-curve points in the receiver. *)
Lemma Deserialize_accepts_invalid_points :
  (exists σ' p1 p2,
     Deserialize (point := bjj.point) (conv := bjj.conv) store_two 1%positive
       (replicate 128 x00) = Some (σ', None) /\
     value σ' 1%positive = Some (p1, p2) /\
     bjj.on_curve p1 = false /\ bjj.on_curve p2 = false) /\
  (exists σ' p1 p2,
     Deserialize (point := bjj.point) (conv := bjj.conv) store_two 1%positive
       (replicate 128 xff) = Some (σ', None) /\
     (bjj.q <=? readBigInt (replicate 128 xff) 0) = true /\
     value σ' 1%positive = Some (p1, p2) /\
     bjj.on_curve p1 = false /\ bjj.on_curve p2 = false).
Proof.
  split.
  - eexists _, _, _. split; [vm_compute; reflexivity|].
    split; [vm_compute; reflexivity|]. split; vm_compute; reflexivity.
  - eexists _, _, _. split; [vm_compute; reflexivity|].
    split; [vm_compute; reflexivity|].
    split; [vm_compute; reflexivity|]. split; vm_compute; reflexivity.
Qed.

Lemma Encrypt_with_k_witness :
  exists σ',
    Encrypt (point := bjj.point) (arith := bjj.arith) store_two 1%positive 5 3%positive
      (Some 7) (inl (ErrOther "unused")) = Some (σ', (Some 1%positive, None)) /\
    value σ' 1%positive = Some (bjj.mul bjj.G 7, bjj.add (bjj.mul bjj.G 5) (bjj.mul G3 7)).
Proof.
  destruct (Encrypt_with_k (point := bjj.point) (arith := bjj.arith)
              store_two 1%positive 5 3%positive 7 (inl (ErrOther "unused"))
              {| C1 := 1; C2 := 2 |} G3 eq_refl eq_refl) as [HE _].
  exact HE.
Defined.

End Witnesses.

(** ** The handler of POST /process *)

Section NewProcess.

Import api.

Context {Address PublicKey PrivateKey Storage : Type}.
Variable json_Decode : list byte -> string + Process.
Variable AddrFromSignature : list byte -> list byte -> string + Address.
Variable GenerateKey : string + (PublicKey * PrivateKey).
Variable Point : PublicKey -> Z * Z.
Variable Marshal : ProcessID Address -> list byte.
Variable StoreEncryptionKeys :
  Storage -> ProcessID Address -> PublicKey -> PrivateKey -> Storage * option string.

Let handler :=
  newProcess Address PublicKey PrivateKey Storage json_Decode AddrFromSignature
    GenerateKey Point Marshal StoreEncryptionKeys.

(** C9.  When decoding the body, recovering the address or generating the
    key fails, the handler writes one error, which carries the code of
    [ErrMalformedBody], [ErrInvalidSignature] or
    [ErrGenericInternalServerError] respectively, does nothing else, and
    leaves the storage as it was: [StoreEncryptionKeys] is not called. *)
Theorem newProcess_failure_commits_nothing storage body :
  fails_before_store Address PublicKey PrivateKey json_Decode AddrFromSignature
    GenerateKey body ->
  exists e,
    handler storage body = (storage, [WriteError Address PublicKey PrivateKey e]) /\
    existsb (is_store_call Address PublicKey PrivateKey) (handler storage body).2 = false /\
    Code e =
      match json_Decode body with
      | inl _ => MalformedBody
      | inr p =>
          match AddrFromSignature (Sprintf_dd (ChainID p) (Nonce p)) (Signature p) with
          | inl _ => InvalidSignature
          | inr _ => GenericInternalServerError
          end
      end.
Proof.
  unfold handler, newProcess.
  intros [(err & ->) | [(p & err & -> & ->) | (p & a & err & -> & -> & ->)]];
    eexists; (split; [reflexivity|]); split; reflexivity.
Qed.

End NewProcess.

(** ** The hashes of the circuits' witnesses *)

Section VoteHashes.

Context {PrivateKey : Type}.
Variable math_Pow : Z -> Z -> Z.
Variable mimc7_Hash : list Z -> string + Z.
Variable SignECDSA : PrivateKey -> list byte -> string + (Z * Z).
Variable mimc_BLS12_377_Sum : list (list byte) -> list byte.
Variable limbs_of : Z -> list Z.
Variable SetString10 : string -> option Z.
Variable mimc_BW6_761_Sum : list (list byte) -> list byte.

(** C3 (as the code has it).  In the witness of either test the message
    that is signed is the circom inputs hash, the hash of the circom-side
    values alone (reduced into the BLS12-377 scalar field in the aggregator
    test, where it is also the witness's [Msg]); the hash that takes the
    census root in is the public [InputsHash] of the witness, and it is not
    what [SignECDSA] is given. *)
Theorem signature_covers_circom_inputs_hash p (v : VoterData PrivateKey) w1 w2 :
  voteverifier.witness math_Pow mimc7_Hash SignECDSA p v = inr w1 ->
  aggregator.voter_witness math_Pow mimc7_Hash SignECDSA mimc_BLS12_377_Sum p v = inr w2 ->
  exists circomInputsHash,
    mimc7_Hash (bigCircomInputs math_Pow p v) = inr circomInputsHash /\
    SignECDSA (privKey v) (big.Bytes circomInputsHash)
      = inr (voteverifier.Signature w1) /\
    mimc7_Hash (bigCircomInputs math_Pow p v ++ [censusRoot p])
      = inr (voteverifier.InputsHash w1) /\
    aggregator.Msg w2 = arbo.BigToFF BLS12_377_ScalarField circomInputsHash /\
    (forall rs, aggregator.Signature w2 = Some rs ->
                SignECDSA (privKey v) (big.Bytes (aggregator.Msg w2)) = inr rs) /\
    aggregator.InputsHash w2 =
      big.SetBytes (mimc_BLS12_377_Sum [big.Bytes (aggregator.Msg w2);
                                        big.Bytes (censusRoot p)]).
Proof.
  unfold voteverifier.witness, aggregator.voter_witness.
  destruct (mimc7_Hash (bigCircomInputs math_Pow p v)) as [err|h]; [discriminate|].
  destruct (SignECDSA (privKey v) (big.Bytes h)) as [err|[r s]] eqn:Hs; [discriminate|].
  destruct (mimc7_Hash (bigCircomInputs math_Pow p v ++ [censusRoot p]))
    as [err|outer]; [discriminate|].
  intros [= <-] [= <-]. exists h.
  cbn [voteverifier.Signature voteverifier.InputsHash aggregator.Msg
       aggregator.Signature aggregator.InputsHash app].
  repeat split; try assumption.
  intros rs.
  destruct (SignECDSA (privKey v) (big.Bytes (arbo.BigToFF BLS12_377_ScalarField h)));
    [discriminate|].
  now intros [= ->].
Qed.

Import aggregator emulated.

Lemma fold_left_snoc {A B} (f : A -> B) (l : list A) (init : list B) :
  fold_left (fun acc a => acc ++ [f a]) l init = init ++ map f l.
Proof.
  revert init. induction l as [|a l IH]; intros init; cbn.
  - now rewrite app_nil_r.
  - now rewrite IH, <- app_assoc.
Qed.

Lemma fold_left_append {A B} (f : A -> list B) (l : list A) (init : list B) :
  fold_left (fun acc a => acc ++ f a) l init = init ++ concat (map f l).
Proof.
  revert init. induction l as [|a l IH]; intros init; cbn.
  - now rewrite app_nil_r.
  - now rewrite IH, <- app_assoc.
Qed.

(** The slice [inputs] of the test holds the values in the order of the
    spec. *)
Lemma test_inputs_batch_values p (voters : list (VoterData PrivateKey)) :
  test_inputs limbs_of math_Pow p voters
  = map (ValueOf limbs_of) (batch_values math_Pow p voters).
Proof.
  unfold test_inputs, batch_values.
  rewrite (fold_left_append plainCipherfields voters []).
  rewrite !fold_left_snoc.
  rewrite !List.map_app, !List.map_map. cbn [map app].
  now rewrite <- !app_assoc.
Qed.

Lemma decompose_bounded n v :
  Forall (fun limb => 0 <= limb < 2 ^ 256) (decompose n v).
Proof.
  revert v. induction n as [|n IH]; intros v; cbn [decompose]; constructor.
  - pose proof (Z.mod_pos_bound v (2 ^ BitsPerLimb) eq_refl) as Hb.
    split; [lia|]. apply Z.lt_trans with (2 ^ BitsPerLimb); [lia|reflexivity].
  - apply IH.
Qed.

Lemma FillBytes_limb limb :
  0 <= limb < 2 ^ 256 ->
  big.FillBytes fr_bls12377_Bytes limb = Some (block_of limb).
Proof.
  intros Hl. unfold big.FillBytes, block_of, fr_bls12377_Bytes.
  assert (Hlen : (length (big.Bytes limb) <= 32)%nat).
  { apply Bytes_length. exact Hl. }
  destruct (Nat.leb_spec (length (big.Bytes limb)) 32); [reflexivity|lia].
Qed.

Lemma hash_limbs_blocks h limbs :
  Forall (fun limb => 0 <= limb < 2 ^ 256) limbs ->
  hash_limbs SetString10 h (map VBigIntPtr limbs) = Returned (h ++ map block_of limbs).
Proof.
  intros Hl. revert h. induction Hl as [|limb limbs Hlimb _ IH]; intros h; cbn.
  - now rewrite app_nil_r.
  - rewrite (FillBytes_limb limb Hlimb), IH, <- app_assoc. reflexivity.
Qed.

Hypothesis limbs_fit : forall v, Forall (fun limb => 0 <= limb < 2 ^ 256) (limbs_of v).

Lemma hash_inputs_blocks h values :
  hash_inputs SetString10 h (map (ValueOf limbs_of) values)
  = Returned (h ++ map block_of (concat (map limbs_of values))).
Proof.
  revert h. induction values as [|v values IH]; intros h; cbn [map hash_inputs concat].
  - now rewrite app_nil_r.
  - unfold ValueOf at 1. cbn [Limbs].
    rewrite hash_limbs_blocks by apply limbs_fit.
    rewrite IH, List.map_app, app_assoc. reflexivity.
Qed.

(** C4.  When the limbs of the emulated elements fit in 32 bytes, the hash
    that the aggregator test declares as [InputsHash] is computed without
    error or panic, and it is the MiMC digest over the BW6-761 scalar field
    of the 32-byte big-endian blocks of the limbs of: the process
    parameters, the two coordinates of the encryption key, the process id,
    the census root, then the nullifiers, the commitments, the addresses
    and the ciphertext coordinates of all voters, none of them reduced into
    a field by the test; one block is written per limb. *)
Theorem batch_hash_follows_spec p (voters : list (VoterData PrivateKey)) :
  finalWitness_InputsHash limbs_of SetString10 mimc_BW6_761_Sum math_Pow p voters
  = Returned (batch_hash_spec limbs_of mimc_BW6_761_Sum math_Pow p voters)
  /\ ComputePublicInputsHashFromBLS12377ToBW6761 SetString10 mimc_BW6_761_Sum
       (map (ValueOf limbs_of) (batch_values math_Pow p voters))
     = Returned (big.SetBytes (mimc_BW6_761_Sum
         (map (fun limb => replicate (32 - length (big.Bytes limb)) x00 ++ big.Bytes limb)
            (concat (map limbs_of (batch_values math_Pow p voters)))))).
Proof.
  unfold finalWitness_InputsHash, batch_hash_spec.
  rewrite test_inputs_batch_values.
  unfold ComputePublicInputsHashFromBLS12377ToBW6761.
  rewrite hash_inputs_blocks. cbn [app]. split; reflexivity.
Qed.

End VoteHashes.

(** ** More theorems at concrete inputs *)

Section MoreWitnesses.

Import ecc format elgamal examples.

Lemma separate_two :
  separate {| C1 := 1; C2 := 2 |} {| C1 := 3; C2 := 4 |}.
Proof. unfold separate. cbn. repeat split; discriminate. Qed.

Lemma Add_homomorphic_witness :
  Add (point := zn.point) store_zn 1%positive 2%positive 3%positive
    = Add (point := zn.point) store_zn 1%positive 3%positive 2%positive /\
  exists σ',
    Add (point := zn.point) store_zn 1%positive 2%positive 3%positive
      = Some (σ', 1%positive) /\
    value σ' 1%positive = Some (28, 32).
Proof.
  destruct (Add_homomorphic (point := zn.point) (H := zn_group)
              store_zn 1%positive 2%positive 3%positive
              {| C1 := 1; C2 := 2 |} {| C1 := 3; C2 := 4 |} {| C1 := 5; C2 := 6 |}
              (5, 7) (11, 13) (17, 19)
              eq_refl eq_refl eq_refl eq_refl eq_refl eq_refl)
    as ((σ' & HA & Hst & _) & Hc & _).
  split; [exact Hc|]. exists σ'. split; [exact HA|].
  apply Hst; cbn; discriminate.
Defined.

(** C8, the claim fails.  In [z.Add(z, y)], the running tally, the input
    [x = z] is modified: its value before the call is [(G, 2G)], after it
    [(G + 3G, 2G + 5G)]. *)
Lemma Add_modifies_accumulator_input :
  exists σ',
    Add (point := bjj.point) store_two 1%positive 1%positive 2%positive
      = Some (σ', 1%positive) /\
    value store_two 1%positive = Some (bjj.G, G2) /\
    value σ' 1%positive = Some (bjj.add bjj.G G3, bjj.add G2 G5) /\
    value σ' 1%positive <> value store_two 1%positive.
Proof.
  eexists. split; [vm_compute; reflexivity|].
  split; [vm_compute; reflexivity|].
  split; [vm_compute; reflexivity|].
  vm_compute. discriminate.
Qed.

Lemma Add_receiver_frame_witness :
  exists σ',
    Add (point := bjj.point) store_two 1%positive 2%positive 2%positive
      = Some (σ', 1%positive) /\
    value σ' 2%positive = Some (G3, G5) /\
    value σ' 1%positive = Some (bjj.add G3 G3, bjj.add G5 G5).
Proof.
  destruct (Add_receiver_frame (point := bjj.point)
              store_two 1%positive 2%positive 2%positive
              {| C1 := 1; C2 := 2 |} {| C1 := 3; C2 := 4 |} {| C1 := 3; C2 := 4 |}
              (bjj.G, G2) (G3, G5) (G3, G5)
              eq_refl eq_refl eq_refl eq_refl eq_refl eq_refl)
    as (σ' & HA & _ & _ & Hst & Hx & _).
  exists σ'. split; [exact HA|]. split.
  - apply Hx. exact separate_two.
  - apply Hst; cbn; discriminate.
Defined.

(** C10, the claim fails.  The struct at reference 3 is not the receiver,
    the struct at reference 1, but its two fields hold the receiver's two
    point objects; [z.Add(x, y)] with this [x] changes the value of [x]
    from [(G, 2G)] to [(G + 3G, 2G + 5G)]. *)
Lemma Add_changes_sharing_argument :
  exists σ',
    (3 =? 1)%positive = false /\
    Add (point := bjj.point) store_shared 1%positive 3%positive 2%positive
      = Some (σ', 1%positive) /\
    value store_shared 3%positive = Some (bjj.G, G2) /\
    value σ' 3%positive = Some (bjj.add bjj.G G3, bjj.add G2 G5) /\
    value σ' 3%positive <> value store_shared 3%positive.
Proof.
  eexists. split; [reflexivity|].
  split; [vm_compute; reflexivity|].
  split; [vm_compute; reflexivity|].
  split; [vm_compute; reflexivity|].
  vm_compute. discriminate.
Qed.

Lemma newProcess_failure_commits_nothing_witness :
  exists e,
    standin.handler 0%nat [x01] = (0%nat, [api.WriteError Z (Z * Z) Z e]) /\
    api.Code e = api.InvalidSignature.
Proof.
  destruct (newProcess_failure_commits_nothing
              standin.Decode standin.AddrFromSignature standin.GenerateKey
              (fun pub => pub) (fun pid => []) standin.Store 0%nat [x01]) as (e & He & _ & Hc).
  - right. left.
    exists {| api.ChainID := 1; api.Nonce := 2; api.Signature := [x01] |},
           "invalid signature length"%string.
    split; reflexivity.
  - exists e. split; [exact He | exact Hc].
Defined.

Lemma signature_covers_circom_inputs_hash_witness :
  exists circomInputsHash,
    standin.Hash (bigCircomInputs standin.Pow standin.process standin.voter)
      = inr circomInputsHash /\
    standin.Sign (privKey standin.voter) (big.Bytes circomInputsHash)
      = inr (voteverifier.Signature standin.witness1) /\
    aggregator.Msg standin.witness2
      = arbo.BigToFF BLS12_377_ScalarField circomInputsHash.
Proof.
  destruct (signature_covers_circom_inputs_hash
              standin.Pow standin.Hash standin.Sign standin.Sum
              standin.process standin.voter standin.witness1 standin.witness2
              ltac:(vm_compute; reflexivity) ltac:(vm_compute; reflexivity))
    as (h & H1 & H2 & _ & H4 & _).
  exists h. repeat split; assumption.
Defined.

(** C3, the claim fails.  On the values of [standin], the message given
    to [SignECDSA] in [TestVerifyVoteCircuit] is the circom inputs hash [h];
    it is neither the hash of [h] and the census root nor the [InputsHash]
    of the witness, the hash that takes the census root in.  In the
    aggregator test the signed [Msg] is [h] again and differs from the
    [InputsHash], which there is the hash of [h] and the census root. *)
Lemma signed_message_is_not_outer_hash :
  exists h outer,
    standin.Hash (bigCircomInputs standin.Pow standin.process standin.voter) = inr h /\
    standin.Hash [h; censusRoot standin.process] = inr outer /\
    voteverifier.witness standin.Pow standin.Hash standin.Sign
      standin.process standin.voter = inr standin.witness1 /\
    standin.Sign (privKey standin.voter) (big.Bytes h)
      = inr (voteverifier.Signature standin.witness1) /\
    standin.Sign (privKey standin.voter) (big.Bytes outer)
      <> inr (voteverifier.Signature standin.witness1) /\
    standin.Sign (privKey standin.voter)
        (big.Bytes (voteverifier.InputsHash standin.witness1))
      <> inr (voteverifier.Signature standin.witness1) /\
    aggregator.voter_witness standin.Pow standin.Hash standin.Sign standin.Sum
      standin.process standin.voter = inr standin.witness2 /\
    aggregator.Msg standin.witness2 = arbo.BigToFF BLS12_377_ScalarField h /\
    aggregator.InputsHash standin.witness2
      = big.SetBytes (standin.Sum [big.Bytes (aggregator.Msg standin.witness2);
                                   big.Bytes (censusRoot standin.process)]) /\
    aggregator.Msg standin.witness2 <> aggregator.InputsHash standin.witness2.
Proof.
  eexists _, _.
  split; [vm_compute; reflexivity|].
  split; [vm_compute; reflexivity|].
  split; [vm_compute; reflexivity|].
  split; [vm_compute; reflexivity|].
  split; [vm_compute; discriminate|].
  split; [vm_compute; discriminate|].
  split; [vm_compute; reflexivity|].
  split; [vm_compute; reflexivity|].
  split; [vm_compute; reflexivity|].
  vm_compute. discriminate.
Qed.

Lemma limbs_BLS12_377_fit v :
  Forall (fun limb => 0 <= limb < 2 ^ 256) (emulated.limbs_BLS12_377 v).
Proof. apply decompose_bounded. Qed.

Lemma batch_hash_follows_spec_witness :
  aggregator.finalWitness_InputsHash emulated.limbs_BLS12_377 (fun _ => None)
    standin.Sum standin.Pow standin.process [standin.voter; standin.voter]
  = aggregator.Returned
      (aggregator.batch_hash_spec emulated.limbs_BLS12_377 standin.Sum standin.Pow
         standin.process [standin.voter; standin.voter]).
Proof.
  exact (proj1 (batch_hash_follows_spec standin.Pow emulated.limbs_BLS12_377
                  (fun _ => None) standin.Sum limbs_BLS12_377_fit
                  standin.process [standin.voter; standin.voter])).
Defined.

End MoreWitnesses.

(** * Further properties of the code *)

(** ** Ciphertexts: allocation, encoding and decoding *)

Section MoreEncoding.

Import ecc format elgamal views.

Context {P : Type} {point : ecc.Point P} {arith : ecc.Arith P} {conv : format.Conv}
  {stringer : Stringer P}.

Implicit Types (σ : state (P := P)) (z w : loc) (data : list byte).

Local Arguments readBigInt : simpl never.
Local Arguments arbo.BigIntToBytes : simpl never.
Local Arguments arbo.BytesToBigInt : simpl never.

Lemma value_lookups σ c v :
  value σ c = Some v ->
  exists cc, ciphertexts σ !! c = Some cc /\
             points σ !! C1 cc = Some v.1 /\ points σ !! C2 cc = Some v.2.
Proof. apply value_Some. Qed.

Lemma Serialize_Some_inv σ z bs :
  Serialize σ z = Some bs ->
  exists cz p1 p2,
    ciphertexts σ !! z = Some cz /\ points σ !! C1 cz = Some p1 /\
    points σ !! C2 cz = Some p2.
Proof.
  unfold Serialize. intros HS.
  destruct (ciphertexts σ !! z) as [cz|]; [|done]. cbn [mbind option_bind] in HS.
  destruct (points σ !! C1 cz) as [p1|] eqn:E1; [|done]. cbn [mbind option_bind] in HS.
  destruct (FromTEtoRTE (coords p1)).
  destruct (points σ !! C2 cz) as [p2|] eqn:E2; [|done].
  now exists cz, p1, p2.
Qed.


(** One run of [NewCiphertext] on an existing curve point. *)
Lemma NewCiphertext_run σ curve pc :
  points σ !! curve = Some pc ->
  exists σ' c cc,
    NewCiphertext σ curve = Some (σ', c) /\
    ciphertexts σ !! c = None /\
    ciphertexts σ' = <[c := cc]> (ciphertexts σ) /\
    points σ !! C1 cc = None /\ points σ !! C2 cc = None /\ C1 cc <> C2 cc /\
    points σ' = <[C2 cc := New]> (<[C1 cc := New]> (points σ)) /\
    value σ' c = Some (New, New) /\
    (forall c0 cc0 v,
       ciphertexts σ !! c0 = Some cc0 -> value σ c0 = Some v ->
       separate cc cc0 /\ value σ' c0 = Some v).
Proof.
  intros Hc. unfold NewCiphertext. rewrite Hc. cbn [mbind option_bind].
  destruct (alloc_point_fresh (points σ) New) as [F1 E1].
  destruct (alloc_point (points σ) New) as [pts1 l1] eqn:A1. cbn [fst snd] in F1, E1.
  destruct (alloc_point_fresh pts1 New) as [F2 E2].
  destruct (alloc_point pts1 New) as [pts2 l2] eqn:A2. cbn [fst snd] in F2, E2.
  set (c := fresh (dom (ciphertexts σ))).
  assert (Fc : ciphertexts σ !! c = None).
  { apply not_elem_of_dom. apply is_fresh. }
  assert (N12 : l1 <> l2).
  { intros ->. rewrite E1, lookup_insert_eq in F2. done. }
  assert (F2' : points σ !! l2 = None).
  { rewrite E1, lookup_insert_ne in F2 by assumption. exact F2. }
  exists {| points := pts2; ciphertexts := <[c := {| C1 := l1; C2 := l2 |}]> (ciphertexts σ) |},
         c, {| C1 := l1; C2 := l2 |}.
  cbn [C1 C2 points ciphertexts].
  split; [reflexivity|]. split; [exact Fc|]. split; [reflexivity|].
  split; [exact F1|]. split; [exact F2'|]. split; [exact N12|].
  split; [now rewrite E2, E1|].
  split.
  { unfold value. cbn [ciphertexts points]. rewrite lookup_insert_eq.
    cbn [mbind option_bind C1 C2]. rewrite E2, E1.
    rewrite (lookup_insert_ne _ l2 l1), lookup_insert_eq by congruence.
    cbn [mbind option_bind]. now rewrite lookup_insert_eq. }
  intros c0 cc0 v Hc0 Hv.
  apply value_lookups in Hv as (cc0' & Hc0' & V1 & V2).
  assert (cc0' = cc0) as -> by congruence.
  assert (S1 : C1 cc0 <> l1) by (intros E; rewrite E, F1 in V1; done).
  assert (S2 : C1 cc0 <> l2) by (intros E; rewrite E, F2' in V1; done).
  assert (S3 : C2 cc0 <> l1) by (intros E; rewrite E, F1 in V2; done).
  assert (S4 : C2 cc0 <> l2) by (intros E; rewrite E, F2' in V2; done).
  split; [repeat split; assumption|].
  assert (c0 <> c) by (intros ->; rewrite Fc in Hc0; done).
  unfold value. cbn [ciphertexts points].
  rewrite lookup_insert_ne, Hc0 by congruence. cbn [mbind option_bind].
  rewrite E2, E1. rewrite !lookup_insert_ne by congruence.
  rewrite V1, V2. cbn. now destruct v.
Qed.

(** X1.  [NewCiphertext] on an existing curve point returns a reference
    that was not in use, to a struct over two distinct point objects that
    were not in use either, both holding [New]; every ciphertext that
    existed keeps its value and shares no point object with the new one. *)
Theorem NewCiphertext_fresh σ curve pc :
  points σ !! curve = Some pc ->
  exists σ' c cc,
    NewCiphertext σ curve = Some (σ', c) /\
    ciphertexts σ !! c = None /\
    ciphertexts σ' !! c = Some cc /\
    C1 cc <> C2 cc /\
    points σ !! C1 cc = None /\ points σ !! C2 cc = None /\
    value σ' c = Some (New, New) /\
    (forall c0 cc0 v,
       ciphertexts σ !! c0 = Some cc0 -> value σ c0 = Some v ->
       separate cc cc0 /\ value σ' c0 = Some v).
Proof.
  intros Hc.
  destruct (NewCiphertext_run σ curve pc Hc)
    as (σ' & c & cc & HN & Fc & Hcts & F1 & F2 & N12 & _ & HV & Hold).
  exists σ', c, cc. split; [exact HN|]. split; [exact Fc|].
  split; [rewrite Hcts; apply lookup_insert_eq|].
  repeat (split; [assumption|]). exact Hold.
Qed.

(** X2.  Whatever [Serialize] returns has 128 bytes, and [Deserialize]
    takes it without error into any receiver whose struct and points
    exist; nothing is asked of the points that were serialized. *)
Theorem Deserialize_accepts_Serialize σ z w bs vw :
  Serialize σ z = Some bs ->
  value σ w = Some vw ->
  length bs = 128%nat /\
  exists σ', Deserialize σ w bs = Some (σ', None).
Proof.
  intros HS Hw.
  destruct (Serialize_Some_inv _ _ _ HS) as (cz & p1 & p2 & Hz & H1 & H2).
  rewrite (Serialize_eq σ z cz p1 p2 Hz H1 H2) in HS. injection HS as <-.
  assert (HL : length (enc (FromTEtoRTE (coords p1)).1 ++ enc (FromTEtoRTE (coords p1)).2 ++
                       enc (FromTEtoRTE (coords p2)).1 ++ enc (FromTEtoRTE (coords p2)).2)
               = 128%nat).
  { rewrite !length_app, !enc_length. reflexivity. }
  split; [exact HL|].
  apply value_lookups in Hw as (cw & Hcw & W1 & W2).
  eexists. exact (Deserialize_128 σ w _ cw _ _ HL Hcw W1 W2).
Qed.



(** The store [Deserialize] leaves when it is given the bytes of
    [Serialize] for two valid points. *)
Lemma Deserialize_Serialize_run (valid : P -> Prop) `{!laws.Encoding P valid}
    σ0 σ z w cz cw p1 p2 q1 q2 :
  ciphertexts σ0 !! z = Some cz ->
  points σ0 !! C1 cz = Some p1 -> points σ0 !! C2 cz = Some p2 ->
  valid p1 -> valid p2 ->
  ciphertexts σ !! w = Some cw ->
  points σ !! C1 cw = Some q1 -> points σ !! C2 cw = Some q2 ->
  exists bs,
    Serialize σ0 z = Some bs /\
    Deserialize σ w bs =
      Some ({| points := <[C2 cw := SetPoint (coords p2).1 (coords p2).2]>
                           (<[C1 cw := SetPoint (coords p1).1 (coords p1).2]> (points σ));
               ciphertexts := <[w := cw]> (ciphertexts σ) |}, None).
Proof.
  intros Hz H1 H2 V1 V2 Hw Hq1 Hq2.
  pose proof (Serialize_eq σ0 z cz p1 p2 Hz H1 H2) as HS.
  set (c1 := FromTEtoRTE (coords p1)) in *.
  set (c2 := FromTEtoRTE (coords p2)) in *.
  destruct (laws.FromTEtoRTE_fits p1 V1) as [F1x F1y].
  destruct (laws.FromTEtoRTE_fits p2 V2) as [F2x F2y].
  fold c1 in F1x, F1y. fold c2 in F2x, F2y.
  destruct (readBigInt_chunks (enc c1.1) (enc c1.2) (enc c2.1) (enc c2.2))
    as (R0 & R1 & R2 & R3); try apply enc_length.
  unfold sizePointCoord in R0, R1, R2, R3.
  change (0 * 32)%nat with 0%nat in R0. change (1 * 32)%nat with 32%nat in R1.
  change (2 * 32)%nat with 64%nat in R2. change (3 * 32)%nat with 96%nat in R3.
  unfold enc in R0, R1, R2, R3.
  rewrite BytesToBigInt_BigIntToBytes in R0, R1, R2, R3 by assumption.
  eexists. split; [exact HS|].
  rewrite (Deserialize_128 σ w _ cw q1 q2); try assumption.
  - unfold enc. rewrite R0, R1, R2, R3. rewrite <- !surjective_pairing.
    unfold c1, c2. now rewrite !laws.FromRTEtoTE_FromTEtoRTE by assumption.
  - rewrite !length_app, !enc_length. reflexivity.
Qed.

(** X5.  A ciphertext decoded into a new ciphertext: [Serialize] of a
    valid [z], [NewCiphertext], then [Deserialize] into the new struct
    succeed, the new ciphertext has the coordinates of [z], and [z] itself
    keeps its value. *)
Theorem round_trip_into_new_ciphertext (valid : P -> Prop) `{!laws.Encoding P valid}
    σ z curve pc v :
  value σ z = Some v -> valid v.1 -> valid v.2 ->
  points σ !! curve = Some pc ->
  exists bs σ1 w σ2 r,
    Serialize σ z = Some bs /\
    NewCiphertext σ curve = Some (σ1, w) /\
    Deserialize σ1 w bs = Some (σ2, None) /\
    value σ2 w = Some r /\
    coords r.1 = coords v.1 /\ coords r.2 = coords v.2 /\
    value σ2 z = Some v.
Proof.
  intros Hv V1 V2 Hc.
  destruct (NewCiphertext_run σ curve pc Hc)
    as (σ1 & w & cw & HN & Fw & Hcts & F1 & F2 & N12 & Hpts & HVw & Hold).
  pose proof Hv as Hv0.
  apply value_lookups in Hv as (cz & Hz & Z1 & Z2).
  destruct (Hold z cz v Hz Hv0) as ((S1 & S2 & S3 & S4) & Hv1).
  assert (Hw1 : ciphertexts σ1 !! w = Some cw) by (rewrite Hcts; apply lookup_insert_eq).
  apply value_lookups in HVw as (cw' & Hw1' & W1 & W2).
  assert (cw' = cw) as -> by congruence. cbn [fst snd] in W1, W2.
  destruct (Deserialize_Serialize_run valid σ σ1 z w cz cw v.1 v.2 New New
              Hz Z1 Z2 V1 V2 Hw1 W1 W2) as (bs & HS & HD).
  eexists bs, σ1, w, _, (_, _). split; [exact HS|]. split; [exact HN|].
  split; [exact HD|].
  assert (Hzw : z <> w) by (intros ->; rewrite Fw in Hz; done).
  split.
  { unfold value. cbn [ciphertexts points]. rewrite lookup_insert_eq.
    cbn [mbind option_bind].
    rewrite (lookup_insert_ne _ (C2 cw) (C1 cw)), lookup_insert_eq by congruence.
    cbn [mbind option_bind]. rewrite lookup_insert_eq. reflexivity. }
  cbn [fst snd].
  split; [now apply laws.coords_SetPoint|]. split; [now apply laws.coords_SetPoint|].
  rewrite <- Hv1. unfold value. cbn [ciphertexts points].
  rewrite lookup_insert_ne by congruence.
  destruct (ciphertexts σ1 !! z) as [cz1|] eqn:Hz1; [|reflexivity].
  cbn [mbind option_bind].
  assert (cz1 = cz) as ->.
  { rewrite Hcts, lookup_insert_ne in Hz1 by congruence. congruence. }
  now rewrite !lookup_insert_ne by congruence.
Qed.

(** X6.  On valid ciphertexts the encoding is injective: two ciphertexts
    with the same bytes have the same coordinates. *)
Theorem Serialize_injective (valid : P -> Prop) `{!laws.Encoding P valid}
    σ σ' z z' bs v v' :
  value σ z = Some v -> value σ' z' = Some v' ->
  valid v.1 -> valid v.2 -> valid v'.1 -> valid v'.2 ->
  Serialize σ z = Some bs -> Serialize σ' z' = Some bs ->
  coords v.1 = coords v'.1 /\ coords v.2 = coords v'.2.
Proof.
  intros Hv Hv' V1 V2 V1' V2' HS HS'.
  apply value_lookups in Hv as (cz & Hz & Z1 & Z2).
  apply value_lookups in Hv' as (cz' & Hz' & Z1' & Z2').
  rewrite (Serialize_eq σ z cz _ _ Hz Z1 Z2) in HS.
  rewrite (Serialize_eq σ' z' cz' _ _ Hz' Z1' Z2') in HS'.
  injection HS as <-. injection HS' as HE.
  apply app_inj_1 in HE as [E1 HE]; [|now rewrite !enc_length].
  apply app_inj_1 in HE as [E2 HE]; [|now rewrite !enc_length].
  apply app_inj_1 in HE as [E3 E4]; [|now rewrite !enc_length].
  destruct (laws.FromTEtoRTE_fits _ V1) as [A1 A2].
  destruct (laws.FromTEtoRTE_fits _ V2) as [A3 A4].
  destruct (laws.FromTEtoRTE_fits _ V1') as [B1 B2].
  destruct (laws.FromTEtoRTE_fits _ V2') as [B3 B4].
  unfold enc, sizePointCoord in E1, E2, E3, E4.
  apply (f_equal arbo.BytesToBigInt) in E1, E2, E3, E4.
  rewrite !BytesToBigInt_BigIntToBytes in E1, E2, E3, E4 by assumption.
  assert (T1 : FromTEtoRTE (coords v.1) = FromTEtoRTE (coords v'.1)).
  { rewrite (surjective_pairing (FromTEtoRTE (coords v.1))),
            (surjective_pairing (FromTEtoRTE (coords v'.1))). congruence. }
  assert (T2 : FromTEtoRTE (coords v.2) = FromTEtoRTE (coords v'.2)).
  { rewrite (surjective_pairing (FromTEtoRTE (coords v.2))),
            (surjective_pairing (FromTEtoRTE (coords v'.2))). congruence. }
  apply (f_equal FromRTEtoTE) in T1, T2.
  rewrite !laws.FromRTEtoTE_FromTEtoRTE in T1, T2 by assumption.
  split; assumption.
Qed.

(** X7.  [ToGnark] and [Serialize] carry the same four numbers: the bytes
    are the encodings of the coordinates [ToGnark] returns, in the order
    [C1.X], [C1.Y], [C2.X], [C2.Y], and each coordinate that lies in
    [[0, 2^256)] is read back from its 32-byte window. *)
Theorem ToGnark_matches_Serialize σ z g :
  ToGnark σ z = Some g ->
  exists bs,
    Serialize σ z = Some bs /\
    bs = enc (X (gC1 g)) ++ enc (Y (gC1 g)) ++ enc (X (gC2 g)) ++ enc (Y (gC2 g)) /\
    (0 <= X (gC1 g) < 2 ^ 256 -> readBigInt bs 0 = X (gC1 g)) /\
    (0 <= Y (gC1 g) < 2 ^ 256 -> readBigInt bs 32 = Y (gC1 g)) /\
    (0 <= X (gC2 g) < 2 ^ 256 -> readBigInt bs 64 = X (gC2 g)) /\
    (0 <= Y (gC2 g) < 2 ^ 256 -> readBigInt bs 96 = Y (gC2 g)).
Proof.
  unfold ToGnark. intros HG.
  destruct (ciphertexts σ !! z) as [cz|] eqn:Hz; [|done]. cbn [mbind option_bind] in HG.
  destruct (points σ !! C1 cz) as [p1|] eqn:E1; [|done]. cbn [mbind option_bind] in HG.
  destruct (FromTEtoRTE (coords p1)) as [c1x c1y] eqn:T1.
  destruct (points σ !! C2 cz) as [p2|] eqn:E2; [|done]. cbn [mbind option_bind] in HG.
  destruct (FromTEtoRTE (coords p2)) as [c2x c2y] eqn:T2.
  pose proof (Serialize_eq σ z cz p1 p2 Hz E1 E2) as HS. rewrite T1, T2 in HS.
  injection HG as <-. cbn [X Y gC1 gC2 fst snd] in *.
  eexists. split; [exact HS|]. split; [reflexivity|].
  destruct (readBigInt_chunks (enc c1x) (enc c1y) (enc c2x) (enc c2y))
    as (R0 & R1 & R2 & R3); try apply enc_length.
  unfold sizePointCoord in R0, R1, R2, R3.
  change (0 * 32)%nat with 0%nat in R0. change (1 * 32)%nat with 32%nat in R1.
  change (2 * 32)%nat with 64%nat in R2. change (3 * 32)%nat with 96%nat in R3.
  rewrite R0, R1, R2, R3. unfold enc, sizePointCoord.
  repeat split; intros Hr; now apply BytesToBigInt_BigIntToBytes.
Qed.

(** X8.  [String] is defined on every reference: where the struct or one
    of its points is nil it gives the fixed text, and these are exactly the
    receivers on which [Serialize] and [ToGnark] panic. *)
Theorem String_nil_safe σ z :
  (value σ z = None ->
   String_ σ z = "{C1: nil, C2: nil}"%string /\
   Serialize σ z = None /\ ToGnark σ z = None) /\
  (forall p1 p2, value σ z = Some (p1, p2) ->
   String_ σ z = ("{C1: " ++ PointString p1 ++ ", C2: " ++ PointString p2 ++ "}")%string /\
   (exists bs, Serialize σ z = Some bs) /\ (exists g, ToGnark σ z = Some g)).
Proof.
  unfold value, String_, Serialize, ToGnark. split.
  - destruct (ciphertexts σ !! z) as [cz|]; [|done]. cbn [mbind option_bind].
    destruct (points σ !! C1 cz) as [p1|]; cbn [mbind option_bind]; [|done].
    destruct (FromTEtoRTE (coords p1)).
    destruct (points σ !! C2 cz) as [p2|]; cbn [mbind option_bind]; done.
  - intros p1 p2.
    destruct (ciphertexts σ !! z) as [cz|]; [|done]. cbn [mbind option_bind].
    destruct (points σ !! C1 cz) as [q1|]; cbn [mbind option_bind]; [|done].
    destruct (FromTEtoRTE (coords q1)).
    destruct (points σ !! C2 cz) as [q2|]; cbn [mbind option_bind]; [|done].
    destruct (FromTEtoRTE (coords q2)).
    intros [= <- <-]. eauto.
Qed.

End MoreEncoding.

(** ** Addition: when it is defined, and the running tally *)

Section MoreAlgebra.

Import ecc format elgamal views.

Context {P : Type} {point : ecc.Point P} {arith : ecc.Arith P} {conv : format.Conv}.

Implicit Types (σ : state (P := P)) (z x y acc : loc) (pts : gmap loc P).

Lemma call_SafeAdd_Some_inv pts pts' r a b :
  call_SafeAdd pts r a b = Some pts' ->
  is_Some (pts !! r) /\ is_Some (pts !! a) /\ is_Some (pts !! b) /\
  forall l, is_Some (pts' !! l) -> is_Some (pts !! l).
Proof.
  unfold call_SafeAdd. intros HA.
  destruct (pts !! r) as [pr|] eqn:Er; cbn [mbind option_bind] in HA; [|done].
  destruct (pts !! a) as [pa|] eqn:Ea; cbn [mbind option_bind] in HA; [|done].
  destruct (pts !! b) as [pb|] eqn:Eb; cbn [mbind option_bind] in HA; [|done].
  injection HA as <-. repeat (split; [eauto|]).
  intros l. rewrite lookup_insert. destruct (decide (r = l)) as [<-|]; [|done].
  intros _. rewrite Er. eauto.
Qed.

Lemma value_is_Some σ c cc :
  ciphertexts σ !! c = Some cc ->
  is_Some (points σ !! C1 cc) -> is_Some (points σ !! C2 cc) ->
  is_Some (value σ c).
Proof.
  intros Hc [p1 H1] [p2 H2]. exists (p1, p2). apply value_Some. now exists cc.
Qed.

(** X9.  [Add] goes through exactly when the receiver and both arguments
    are structs whose two points exist; a nil struct or a nil point
    anywhere makes it panic. *)
Theorem Add_defined_iff σ z x y :
  is_Some (Add σ z x y) <->
  is_Some (value σ z) /\ is_Some (value σ x) /\ is_Some (value σ y).
Proof.
  split.
  - intros [[σ' r] HA]. unfold Add in HA.
    destruct (ciphertexts σ !! z) as [cz|] eqn:Hz; cbn [mbind option_bind] in HA; [|done].
    destruct (ciphertexts σ !! x) as [cx|] eqn:Hx; cbn [mbind option_bind] in HA; [|done].
    destruct (ciphertexts σ !! y) as [cy|] eqn:Hy; cbn [mbind option_bind] in HA; [|done].
    destruct (call_SafeAdd (points σ) _ _ _) as [pts1|] eqn:E1;
      cbn [mbind option_bind] in HA; [|done].
    destruct (call_SafeAdd pts1 _ _ _) as [pts2|] eqn:E2;
      cbn [mbind option_bind] in HA; [|done].
    apply call_SafeAdd_Some_inv in E1 as (Z1 & X1 & Y1 & Hback).
    apply call_SafeAdd_Some_inv in E2 as (Z2 & X2 & Y2 & _).
    repeat split; eapply value_is_Some; eauto.
  - intros ([vz Vz] & [vx Vx] & [vy Vy]).
    pose proof Vz as Vz0. pose proof Vx as Vx0. pose proof Vy as Vy0.
    apply value_Some in Vz0 as (cz & Hz & _).
    apply value_Some in Vx0 as (cx & Hx & _).
    apply value_Some in Vy0 as (cy & Hy & _).
    destruct (Add_run σ z x y cz cx cy vz vx vy Hz Vz Hx Vx Hy Vy)
      as (a & b & _ & _ & ->). eauto.
Qed.

(** The fold of a commutative and associative sum does not depend on the
    order of the list. *)
Lemma fold_add_value_Permutation `{!laws.Group P} (vs vs' : list (P * P)) (a : P * P) :
  Permutation vs vs' ->
  fold_left add_value vs a = fold_left add_value vs' a.
Proof.
  intros Hp. revert a. induction Hp as [|v vs vs' _ IH|u v vs|vs vs' vs'' _ IH1 _ IH2];
    intros a; cbn [fold_left].
  - reflexivity.
  - apply IH.
  - f_equal. rewrite !add_value_assoc. f_equal. apply add_value_comm.
  - now rewrite IH1.
Qed.

Lemma values_cons σ c cs v :
  value σ c = Some v -> values σ (c :: cs) = v :: values σ cs.
Proof. intros Hv. unfold values. cbn -[value]. now rewrite Hv. Qed.

Lemma values_frame σ σ' cz cs :
  ciphertexts σ' = ciphertexts σ ->
  (forall c cc, ciphertexts σ !! c = Some cc -> separate cz cc -> value σ' c = value σ c) ->
  Forall (addable σ cz) cs ->
  values σ' cs = values σ cs /\ Forall (addable σ' cz) cs.
Proof.
  intros Hcts Hfr HF. induction HF as [|c cs (cc & Hc & Hs & Hv) _ [IH1 IH2]].
  - split; [reflexivity|constructor].
  - split.
    + unfold values in *. cbn -[value]. rewrite (Hfr c cc Hc Hs). now rewrite IH1.
    + constructor; [|exact IH2]. exists cc. rewrite Hcts, (Hfr c cc Hc Hs). auto.
Qed.

(** One run of the tally. *)
Lemma AddAll_run σ acc cz vacc cs :
  ciphertexts σ !! acc = Some cz -> value σ acc = Some vacc -> C1 cz <> C2 cz ->
  Forall (addable σ cz) cs ->
  exists σ',
    AddAll σ acc cs = Some σ' /\
    value σ' acc = Some (fold_left add_value (values σ cs) vacc) /\
    ciphertexts σ' = ciphertexts σ /\
    (forall c cc, ciphertexts σ !! c = Some cc -> separate cz cc ->
                  value σ' c = value σ c).
Proof.
  intros Hz Hv Hne HF. revert σ vacc Hz Hv HF.
  induction cs as [|c cs IH]; intros σ vacc Hz Hv HF.
  - exists σ. cbn. auto.
  - apply Forall_cons in HF as [(cc & Hc & Hs & [vc Hvc]) HF].
    pose proof Hs as (_ & _ & S3 & _).
    destruct (Add_stores σ acc acc c cz cz cc vacc vacc vc Hz Hv Hz Hv Hc Hvc
                Hne Hne ltac:(congruence)) as (σ1 & HA & Hcts & HV1).
    assert (Hfr : forall c0 cc0, ciphertexts σ !! c0 = Some cc0 -> separate cz cc0 ->
                                 value σ1 c0 = value σ c0).
    { intros c0 cc0 Hc0 Hs0. exact (Add_frame_value σ σ1 acc acc c cz c0 cc0 Hz HA Hc0 Hs0). }
    destruct (values_frame σ σ1 cz cs Hcts Hfr HF) as [Hvals HF1].
    assert (Hz1 : ciphertexts σ1 !! acc = Some cz) by (rewrite Hcts; exact Hz).
    destruct (IH σ1 (add_value vacc vc) Hz1 HV1 HF1) as (σ' & HAll & HV' & Hcts' & Hfr').
    exists σ'. cbn [AddAll]. rewrite HA. cbn [mbind option_bind].
    split; [exact HAll|]. split.
    { rewrite HV', Hvals, (values_cons σ c cs vc Hvc). reflexivity. }
    split; [congruence|].
    intros c0 cc0 Hc0 Hs0. rewrite <- (Hfr c0 cc0 Hc0 Hs0).
    apply (Hfr' c0 cc0); [rewrite Hcts; exact Hc0 | exact Hs0].
Qed.

(** X10.  The running tally: adding the ciphertexts of a list, one after
    the other, into an accumulator whose two point objects are distinct
    and shared with none of them goes through, leaves in the accumulator
    the fold of the coordinate-wise sum over their values, and changes none
    of them. *)
Theorem AddAll_tally σ acc cz vacc cs :
  ciphertexts σ !! acc = Some cz -> value σ acc = Some vacc -> C1 cz <> C2 cz ->
  Forall (addable σ cz) cs ->
  exists σ',
    AddAll σ acc cs = Some σ' /\
    value σ' acc = Some (fold_left add_value (values σ cs) vacc) /\
    length (values σ cs) = length cs /\
    values σ' cs = values σ cs.
Proof.
  intros Hz Hv Hne HF.
  destruct (AddAll_run σ acc cz vacc cs Hz Hv Hne HF) as (σ' & HA & HV & Hcts & Hfr).
  exists σ'. split; [exact HA|]. split; [exact HV|]. split.
  - clear -HF. induction HF as [|c cs (cc & _ & _ & [v Hv]) _ IH]; [reflexivity|].
    rewrite (values_cons σ c cs v Hv). cbn [length]. now rewrite IH.
  - apply (values_frame σ σ' cz cs Hcts Hfr HF).
Qed.

(** X11.  The tally does not depend on the order of the ballots: two
    lists that are permutations of each other leave the same value in the
    accumulator. *)
Theorem AddAll_order_independent `{!laws.Group P} σ acc cz vacc cs cs' :
  ciphertexts σ !! acc = Some cz -> value σ acc = Some vacc -> C1 cz <> C2 cz ->
  Forall (addable σ cz) cs ->
  Permutation cs cs' ->
  exists σ1 σ2,
    AddAll σ acc cs = Some σ1 /\ AddAll σ acc cs' = Some σ2 /\
    value σ1 acc = value σ2 acc.
Proof.
  intros Hz Hv Hne HF Hp.
  assert (HF' : Forall (addable σ cz) cs') by (rewrite <- Hp; exact HF).
  destruct (AddAll_run σ acc cz vacc cs Hz Hv Hne HF) as (σ1 & HA1 & HV1 & _).
  destruct (AddAll_run σ acc cz vacc cs' Hz Hv Hne HF') as (σ2 & HA2 & HV2 & _).
  exists σ1, σ2. split; [exact HA1|]. split; [exact HA2|].
  rewrite HV1, HV2. f_equal. apply fold_add_value_Permutation.
  unfold values. now apply omap_Permutation.
Qed.

End MoreAlgebra.

(** ** The two handlers of /process *)

Section Handlers.

Import api traces.

Context {Address PublicKey PrivateKey Storage : Type}.
Variable json_Decode : list byte -> string + Process.
Variable AddrFromSignature : list byte -> list byte -> string + Address.
Variable GenerateKey : string + (PublicKey * PrivateKey).
Variable Point : PublicKey -> Z * Z.
Variable Marshal : ProcessID Address -> list byte.
Variable StoreEncryptionKeys :
  Storage -> ProcessID Address -> PublicKey -> PrivateKey -> Storage * option string.
Variable hex_DecodeString : string -> string + list byte.
Variable Unmarshal : list byte -> string + ProcessID Address.
Variable Hex : Address -> string.
Variable LoadEncryptionKeys :
  Storage -> ProcessID Address -> string + (PublicKey * PrivateKey).

Let post :=
  newProcess Address PublicKey PrivateKey Storage json_Decode AddrFromSignature
    GenerateKey Point Marshal StoreEncryptionKeys.

Let get :=
  api_get.process Address PublicKey PrivateKey Storage hex_DecodeString Unmarshal
    Marshal Hex LoadEncryptionKeys Point.

(** X12.  On every request the POST handler writes to the response exactly
    once, as the last thing it does; it calls [StoreEncryptionKeys] at
    most once; the JSON response is written only after that call; and
    when the call is not made the storage is the one it was given. *)
Theorem newProcess_one_response storage body :
  (exists before e,
     (post storage body).2 = before ++ [e] /\
     is_response e = true /\
     forallb (fun e' => negb (is_response e')) before = true) /\
  (length (List.filter (is_store_call Address PublicKey PrivateKey)
             (post storage body).2) <= 1)%nat /\
  (existsb is_json (post storage body).2 = true ->
   exists pid pub priv rest,
     (post storage body).2
       = CallStoreEncryptionKeys Address PublicKey PrivateKey pid pub priv :: rest /\
     StoreEncryptionKeys storage pid pub priv = ((post storage body).1, None)) /\
  (existsb (is_store_call Address PublicKey PrivateKey) (post storage body).2 = false ->
   (post storage body).1 = storage).
Proof.
  unfold post, newProcess.
  destruct (json_Decode body) as [err|p].
  { split; [eexists [], _; cbn; repeat split|]. cbn. split; [lia|]. split; [discriminate|auto]. }
  destruct (AddrFromSignature _ _) as [err|a].
  { split; [eexists [], _; cbn; repeat split|]. cbn. split; [lia|]. split; [discriminate|auto]. }
  destruct GenerateKey as [err|[pub priv]].
  { split; [eexists [], _; cbn; repeat split|]. cbn. split; [lia|]. split; [discriminate|auto]. }
  destruct (Point pub) as [x y].
  destruct (StoreEncryptionKeys storage _ pub priv) as [st' [err|]] eqn:ES.
  - split; [eexists [_], _; cbn; repeat split|].
    cbn. split; [lia|]. split; [discriminate|discriminate].
  - split; [eexists [_; _], _; cbn; repeat split|].
    cbn. split; [lia|]. split; [|discriminate].
    intros _. eexists _, _, _, _. split; [reflexivity|exact ES].
Qed.

(** X13.  A process that was created can be looked up: when POST answered
    with the JSON response [pr], the id it returned unmarshals to the
    process id that was stored, and the storage returns the keys stored
    under it, then GET with the hex text of that id answers with one JSON
    response carrying the same process id, the same public key
    coordinates, and the chain id and nonce of the request. *)
Theorem process_after_newProcess storage body storage' trace pr pid pub priv id :
  post storage body = (storage', trace) ->
  In (WriteJSON Address PublicKey PrivateKey pr) trace ->
  In (CallStoreEncryptionKeys Address PublicKey PrivateKey pid pub priv) trace ->
  hex_DecodeString id = inr (respProcessID pr) ->
  Unmarshal (respProcessID pr) = inr pid ->
  LoadEncryptionKeys storage' pid = inr (pub, priv) ->
  exists pr' p,
    get storage' id = [api_get.WriteJSON pr'] /\
    api_get.respProcessID pr' = respProcessID pr /\
    api_get.respEncryptionPubKey pr' = respEncryptionPubKey pr /\
    json_Decode body = inr p /\
    api_get.respChainID pr' = ChainID p /\
    api_get.respNonce pr' = Nonce p.
Proof.
  unfold post, newProcess, get, api_get.process.
  destruct (json_Decode body) as [err|p];
    [intros [= <- <-] [HJ|[]]; discriminate|].
  destruct (AddrFromSignature _ _) as [err|a];
    [intros [= <- <-] [HJ|[]]; discriminate|].
  destruct GenerateKey as [err|[pub0 priv0]];
    [intros [= <- <-] [HJ|[]]; discriminate|].
  destruct (Point pub0) as [x y] eqn:EP.
  destruct (StoreEncryptionKeys storage _ pub0 priv0) as [st' [err|]].
  { intros [= <- <-] [HJ|[HJ|[]]]; discriminate. }
  intros [= <- <-] [HJ|[HJ|[HJ|[]]]]; try discriminate.
  injection HJ as <-.
  intros [HC|[HC|[HC|[]]]]; try discriminate.
  injection HC as <- <- <-.
  cbn [respProcessID respEncryptionPubKey].
  intros -> HU HL. rewrite HU, HL, EP.
  eexists _, p. cbn. repeat split; reflexivity.
Qed.

End Handlers.

(** ** The public inputs hash, limb by limb *)

Section MoreHash.

Import emulated aggregator limbs.

Variable SetString10 : string -> option Z.
Variable mimc_BW6_761_Sum : list (list byte) -> list byte.

Let limb_block := limb_block SetString10.
Let hash_limbs := hash_limbs SetString10.
Let hash_inputs := hash_inputs SetString10.
Let Compute := ComputePublicInputsHashFromBLS12377ToBW6761 SetString10 mimc_BW6_761_Sum.

Lemma hash_limbs_cons h limb rest :
  hash_limbs h (limb :: rest) =
    match limb_block limb with
    | Returned buf => hash_limbs (h ++ [buf]) rest
    | Failed err => Failed err
    | Panic => Panic
    end.
Proof.
  unfold hash_limbs, limb_block, limbs.limb_block. cbn [aggregator.hash_limbs].
  destruct (getBigIntFromVariable SetString10 limb); [reflexivity|].
  destruct (big.FillBytes fr_bls12377_Bytes _); reflexivity.
Qed.

Lemma hash_limbs_app h l1 l2 :
  hash_limbs h (l1 ++ l2) =
    match hash_limbs h l1 with
    | Returned h' => hash_limbs h' l2
    | other => other
    end.
Proof.
  revert h. induction l1 as [|limb l1 IH]; intros h; [reflexivity|].
  cbn [app]. rewrite !hash_limbs_cons.
  destruct (limb_block limb); try reflexivity. apply IH.
Qed.

(** The outer loop is the inner loop over all limbs in a row. *)
Lemma hash_inputs_flat h publicInputs :
  hash_inputs h publicInputs = hash_limbs h (all_limbs publicInputs).
Proof.
  revert h. induction publicInputs as [|input rest IH]; intros h; [reflexivity|].
  unfold all_limbs. cbn [map concat]. rewrite hash_limbs_app.
  unfold hash_inputs. cbn [aggregator.hash_inputs]. fold hash_limbs.
  destruct (hash_limbs h (Limbs input)); try reflexivity. apply IH.
Qed.

Lemma hash_limbs_ext h l1 l2 :
  Forall2 (fun a b => limb_block a = limb_block b) l1 l2 ->
  hash_limbs h l1 = hash_limbs h l2.
Proof.
  intros HF. revert h. induction HF as [|a b l1 l2 Hab _ IH]; intros h; [reflexivity|].
  rewrite !hash_limbs_cons, Hab. destruct (limb_block b); try reflexivity. apply IH.
Qed.

Lemma FillBytes_length n v buf :
  big.FillBytes n v = Some buf -> length buf = n.
Proof.
  unfold big.FillBytes.
  destruct (Nat.leb_spec (length (big.Bytes v)) n); [|discriminate].
  intros [= <-]. rewrite length_app, length_replicate. lia.
Qed.

Lemma FillBytes_None n v :
  big.FillBytes n v = None <-> 256 ^ Z.of_nat n <= Z.abs v.
Proof.
  unfold big.FillBytes.
  assert (Hval : big.le_value (arbo.SwapEndianness (big.Bytes (Z.abs v))) = Z.abs v)
    by (apply le_value_swap_Bytes; lia).
  assert (Hb : big.Bytes v = big.Bytes (Z.abs v)).
  { unfold big.Bytes. now rewrite Z.abs_idemp. }
  pose proof (le_value_range (arbo.SwapEndianness (big.Bytes (Z.abs v)))) as Hr.
  rewrite Hval in Hr. unfold arbo.SwapEndianness in Hr. rewrite length_rev, <- Hb in Hr.
  destruct (Nat.leb_spec (length (big.Bytes v)) n) as [Hle|Hgt].
  - split; [discriminate|]. intros Hbig. exfalso.
    assert (256 ^ Z.of_nat (length (big.Bytes v)) <= 256 ^ Z.of_nat n)
      by (apply Z.pow_le_mono_r; lia).
    lia.
  - split; [intros _|reflexivity].
    destruct (Z_lt_le_dec (Z.abs v) (256 ^ Z.of_nat n)) as [Hlt|Hge]; [|exact Hge].
    pose proof (Bytes_length n (Z.abs v) ltac:(lia)) as Hlen. rewrite <- Hb in Hlen. lia.
Qed.

(** X14.  The hash binds only the sequence of limb values: two slices of
    inputs whose limbs, taken in a row, give the same blocks are hashed
    alike, however the limbs are grouped into elements and whatever the
    dynamic type that carries a value. *)
Theorem hash_depends_on_limb_values_only inputs1 inputs2 :
  Forall2 (fun a b => limb_block a = limb_block b)
    (all_limbs inputs1) (all_limbs inputs2) ->
  Compute inputs1 = Compute inputs2.
Proof.
  intros HF. unfold Compute, ComputePublicInputsHashFromBLS12377ToBW6761.
  fold hash_inputs. rewrite !hash_inputs_flat.
  now rewrite (hash_limbs_ext [] _ _ HF).
Qed.

(** X15.  The first limb that cannot be turned into a block decides the
    outcome: when every limb before it is a number below [2^256] in
    absolute value, the function returns the error of
    [getBigIntFromVariable] for that limb, or panics in [FillBytes] when
    the limb is a number of [2^256] or more; no hash is returned. *)
Theorem hash_stops_at_first_bad_limb inputs good bad rest :
  all_limbs inputs = good ++ bad :: rest ->
  Forall (fun limb => exists v, getBigIntFromVariable SetString10 limb = inr v /\
                                Z.abs v < 2 ^ 256) good ->
  (forall err, getBigIntFromVariable SetString10 bad = inl err ->
               Compute inputs = Failed err) /\
  (forall v, getBigIntFromVariable SetString10 bad = inr v -> 2 ^ 256 <= Z.abs v ->
             Compute inputs = Panic).
Proof.
  intros Hflat Hgood.
  assert (Hpre : forall h, exists h', hash_limbs h good = Returned h').
  { clear Hflat. induction Hgood as [|limb good (v & Hv & Hlt) _ IH]; intros h.
    - exists h. reflexivity.
    - rewrite hash_limbs_cons. unfold limb_block, limbs.limb_block. rewrite Hv.
      destruct (big.FillBytes fr_bls12377_Bytes v) as [buf|] eqn:EF.
      + apply IH.
      + apply FillBytes_None in EF. unfold fr_bls12377_Bytes in EF.
        change (256 ^ Z.of_nat 32) with (2 ^ 256) in EF. lia. }
  destruct (Hpre []) as [h' Hh'].
  unfold Compute, ComputePublicInputsHashFromBLS12377ToBW6761. fold hash_inputs.
  rewrite hash_inputs_flat, Hflat, hash_limbs_app, Hh', hash_limbs_cons.
  unfold limb_block, limbs.limb_block. split.
  - intros err ->. reflexivity.
  - intros v -> Hbig.
    assert (EF : big.FillBytes fr_bls12377_Bytes v = None).
    { apply FillBytes_None. unfold fr_bls12377_Bytes.
      change (256 ^ Z.of_nat 32) with (2 ^ 256). exact Hbig. }
    now rewrite EF.
Qed.

(** X16.  When the loops go through, the hasher has been given one block
    per limb, each of exactly 32 bytes, in the order of the limbs. *)
Theorem hasher_gets_one_block_per_limb inputs h :
  hash_inputs [] inputs = Returned h ->
  length h = length (all_limbs inputs) /\
  Forall (fun block => length block = 32%nat) h /\
  Forall2 (fun limb block => limb_block limb = Returned block) (all_limbs inputs) h.
Proof.
  rewrite hash_inputs_flat.
  assert (Hgen : forall limbs h0 h1,
            hash_limbs h0 limbs = Returned h1 ->
            exists blocks, h1 = h0 ++ blocks /\
              Forall2 (fun limb block => limb_block limb = Returned block) limbs blocks).
  { induction limbs as [|limb limbs IH]; intros h0 h1.
    - intros [= <-]. exists []. rewrite app_nil_r. split; [reflexivity|constructor].
    - rewrite hash_limbs_cons. destruct (limb_block limb) as [| |buf] eqn:EB; try discriminate.
      intros HR. destruct (IH _ _ HR) as (blocks & -> & HF).
      exists (buf :: blocks). rewrite <- app_assoc. split; [reflexivity|].
      constructor; assumption. }
  intros HR. destruct (Hgen _ _ _ HR) as (blocks & -> & HF). cbn [app].
  split; [symmetry; exact (Forall2_length _ _ _ HF)|]. split; [|exact HF].
  clear -HF. induction HF as [|limb block limbs blocks Hb _ IH]; constructor; [|exact IH].
  unfold limb_block, limbs.limb_block in Hb.
  destruct (getBigIntFromVariable SetString10 limb); [discriminate|].
  destruct (big.FillBytes fr_bls12377_Bytes z) eqn:EF; [|discriminate].
  injection Hb as <-. exact (FillBytes_length _ _ _ EF).
Qed.

End MoreHash.

(** ** Errors in the construction of the witnesses *)

Section WitnessErrors.

Context {PrivateKey : Type}.
Variable math_Pow : Z -> Z -> Z.
Variable mimc7_Hash : list Z -> string + Z.
Variable SignECDSA : PrivateKey -> list byte -> string + (Z * Z).
Variable mimc_BLS12_377_Sum : list (list byte) -> list byte.


End WitnessErrors.

(** ** The further properties at concrete inputs *)

Section FurtherWitnesses.

Import ecc format elgamal views examples samples emulated aggregator limbs.

Lemma NewCiphertext_fresh_witness :
  exists σ' c,
    NewCiphertext (point := bjj.point) store_two 1%positive = Some (σ', c) /\
    value σ' c = Some ((0, 1), (0, 1)) /\
    value σ' 1%positive = Some (bjj.G, G2).
Proof.
  destruct (NewCiphertext_fresh (point := bjj.point) store_two 1%positive bjj.G eq_refl)
    as (σ' & c & cc & HN & _ & _ & _ & _ & _ & HV & Hold).
  exists σ', c. split; [exact HN|]. split; [exact HV|].
  exact (proj2 (Hold 1%positive {| C1 := 1; C2 := 2 |} (bjj.G, G2) eq_refl eq_refl)).
Defined.

Lemma Deserialize_accepts_Serialize_witness :
  length wire_G = 128%nat /\
  exists σ',
    Deserialize (point := bjj.point) (conv := bjj.conv) store_two 2%positive wire_G
      = Some (σ', None).
Proof.
  apply (Deserialize_accepts_Serialize (point := bjj.point) (conv := bjj.conv)
           store_two 1%positive 2%positive wire_G (G3, G5)).
  - vm_compute. reflexivity.
  - reflexivity.
Defined.



Lemma round_trip_into_new_ciphertext_witness :
  exists bs σ1 w σ2 r,
    Serialize (point := bjj.point) (conv := bjj.conv) store_two 1%positive = Some bs /\
    NewCiphertext (point := bjj.point) store_two 3%positive = Some (σ1, w) /\
    Deserialize (point := bjj.point) (conv := bjj.conv) σ1 w bs = Some (σ2, None) /\
    value σ2 w = Some r /\
    r.1 = bjj.G /\ r.2 = G2 /\
    value σ2 1%positive = Some (bjj.G, G2).
Proof.
  apply (round_trip_into_new_ciphertext (point := bjj.point) (conv := bjj.conv)
           (fun p => bjj.on_curve p = true) (H := bjj_encoding)
           store_two 1%positive 3%positive G3 (bjj.G, G2)).
  all: vm_compute; reflexivity.
Defined.

Lemma Serialize_injective_witness :
  (bjj.G, G2).1 = (bjj.G, G2).1 /\ (bjj.G, G2).2 = (bjj.G, G2).2.
Proof.
  apply (Serialize_injective (point := bjj.point) (conv := bjj.conv)
           (fun p => bjj.on_curve p = true) (H := bjj_encoding)
           store_two store_shared 1%positive 3%positive wire_G (bjj.G, G2) (bjj.G, G2)).
  all: vm_compute; reflexivity.
Defined.

Lemma ToGnark_matches_Serialize_witness :
  exists bs,
    Serialize (point := bjj.point) (conv := bjj.conv) store_two 1%positive = Some bs /\
    readBigInt bs 0 = X (gC1 gnark_G) /\ readBigInt bs 96 = Y (gC2 gnark_G).
Proof.
  destruct (ToGnark_matches_Serialize (point := bjj.point) (conv := bjj.conv)
              store_two 1%positive gnark_G ltac:(vm_compute; reflexivity))
    as (bs & HS & _ & H0 & _ & _ & H3).
  exists bs. split; [exact HS|]. split.
  - apply H0. split; [discriminate|reflexivity].
  - apply H3. split; [discriminate|reflexivity].
Defined.

Lemma addable_zn :
  Forall (addable (P := Z) store_zn {| C1 := 1; C2 := 2 |}) [2%positive; 3%positive].
Proof.
  repeat constructor.
  - exists {| C1 := 3; C2 := 4 |}. split; [reflexivity|].
    split; [unfold separate; cbn; repeat split; discriminate|]. eexists. reflexivity.
  - exists {| C1 := 5; C2 := 6 |}. split; [reflexivity|].
    split; [unfold separate; cbn; repeat split; discriminate|]. eexists. reflexivity.
Qed.

Lemma AddAll_tally_witness :
  exists σ',
    AddAll (point := zn.point) store_zn 1%positive [2%positive; 3%positive] = Some σ' /\
    value σ' 1%positive = Some (33, 39).
Proof.
  destruct (AddAll_tally (point := zn.point) store_zn 1%positive
              {| C1 := 1; C2 := 2 |} (5, 7) [2%positive; 3%positive]
              eq_refl eq_refl ltac:(discriminate) addable_zn) as (σ' & HA & HV & _).
  exists σ'. split; [exact HA | exact HV].
Defined.

Lemma AddAll_order_independent_witness :
  exists σ1 σ2,
    AddAll (point := zn.point) store_zn 1%positive [2%positive; 3%positive] = Some σ1 /\
    AddAll (point := zn.point) store_zn 1%positive [3%positive; 2%positive] = Some σ2 /\
    value σ1 1%positive = value σ2 1%positive.
Proof.
  exact (AddAll_order_independent (point := zn.point) (H := zn_group)
           store_zn 1%positive {| C1 := 1; C2 := 2 |} (5, 7)
           [2%positive; 3%positive] [3%positive; 2%positive]
           eq_refl eq_refl ltac:(discriminate) addable_zn
           (perm_swap 3%positive 2%positive [])).
Defined.

Lemma process_after_newProcess_witness :
  exists pr',
    served.get (served.post None [x09]).1 "0102" = [api_get.WriteJSON pr'] /\
    api_get.respProcessID pr' = [x01; x02] /\
    api_get.respEncryptionPubKey pr' = bjj.G.
Proof.
  destruct (process_after_newProcess
              served.Decode served.AddrFromSignature served.GenerateKey
              (fun pub => pub) served.Marshal served.Store
              served.hex_DecodeString served.Unmarshal (fun _ => "0x00"%string) served.Load
              None [x09] (served.post None [x09]).1 (served.post None [x09]).2
              {| api.respProcessID := [x01; x02];
                 api.respEncryptionPubKey := bjj.G;
                 api.respStateRoot := [] |}
              served.the_pid bjj.G 5 "0102"%string)
    as (pr' & p & HG & HP & HK & _).
  - reflexivity.
  - right. right. left. reflexivity.
  - left. reflexivity.
  - reflexivity.
  - reflexivity.
  - reflexivity.
  - exists pr'. split; [exact HG|]. split; [exact HP | exact HK].
Defined.

Lemma hash_depends_on_limb_values_only_witness :
  ComputePublicInputsHashFromBLS12377ToBW6761 samples.SetString10 standin.Sum inputs_a
  = ComputePublicInputsHashFromBLS12377ToBW6761 samples.SetString10 standin.Sum inputs_b.
Proof.
  apply (hash_depends_on_limb_values_only samples.SetString10 standin.Sum
           inputs_a inputs_b).
  repeat constructor.
Defined.

Lemma hash_stops_at_first_bad_limb_witness :
  ComputePublicInputsHashFromBLS12377ToBW6761 samples.SetString10 standin.Sum
    inputs_bad_type = Failed "unsupported variable type float64" /\
  ComputePublicInputsHashFromBLS12377ToBW6761 samples.SetString10 standin.Sum
    inputs_too_big = Panic.
Proof.
  split.
  - apply (proj1 (hash_stops_at_first_bad_limb samples.SetString10 standin.Sum
                    inputs_bad_type [VInt 1] (VOther "float64") [VInt 2] eq_refl
                    ltac:(repeat constructor; exists 1; split; reflexivity))).
    reflexivity.
  - apply (proj2 (hash_stops_at_first_bad_limb samples.SetString10 standin.Sum
                    inputs_too_big [VInt 1] (VBigInt (2 ^ 256)) [] eq_refl
                    ltac:(repeat constructor; exists 1; split; reflexivity))
             (2 ^ 256)).
    + reflexivity.
    + vm_compute. discriminate.
Defined.

Lemma hasher_gets_one_block_per_limb_witness :
  length [block_of 5; block_of 7] = 2%nat /\
  Forall (fun block => length block = 32%nat) [block_of 5; block_of 7].
Proof.
  destruct (hasher_gets_one_block_per_limb samples.SetString10 inputs_b
              [block_of 5; block_of 7] ltac:(vm_compute; reflexivity)) as (HL & HF & _).
  split; [exact HL | exact HF].
Defined.

End FurtherWitnesses.
